(** * A publish-subscribe bus for agents: [agent_protocol.py]

    Shallow embedding of [src/communication_protocol/agent_protocol.py]:
    the pydantic model [Message], the registry operations [subscribe] and
    [unsubscribe], the intake queue with [publish], the coroutine
    [_run_loop] with its inner [_dispatch], and the lifecycle calls [run]
    and [stop].

    The file is organised as follows.
    - [PyFloat]: Python floats as far as the [priority] bounds need them.
    - [Msg]: the [Message] model and its construction-time validation.
    - [Bus]: the state of an [AgentProtocol] instance, the synchronous
      methods, and the background task(s) running [_run_loop], resumed one
      suspension point at a time by the event loop; then the vocabulary
      in which traces and executions are described.
    - [Scenario]: the handlers and messages of [pubsub_example.py].
    - [MsgProps], [BusFacts]: construction of messages; what one turn of
      a task does, and the invariant of all executions.
    - [Executions], [Dispatch], [Errors], [Registry], [Lifecycle]: the
      properties of the bus.

    What is taken from asyncio.  The event loop is cooperative: the
    synchronous methods and [publish] (the queue is unbounded, [put] does
    not wait) run without interruption, and a task runs from one await
    that suspends it to the next.  [Task.cancel()] makes the task get a
    [CancelledError] at the await it is suspended on, when it runs next;
    [CancelledError] derives from [BaseException], not from
    [Exception].  A handler is an opaque coroutine: awaiting it may
    suspend the loop, it ends by returning or by raising, and a
    [CancelledError] thrown into a suspended handler comes out of it.
    The executions ([exec]) are those in which the handlers end by a
    return or an [Exception] and in which the methods of the bus are
    called between the turns of the loop, by other tasks; a handler
    that ends by a [BaseException] is the subject of [deliver], and a
    handler that calls [stop] on the loop that is running it is not
    modelled.  [Queue.task_done()] only counts for [Queue.join()], which
    the bus never calls, and is left out. *)

From Stdlib Require Import QArith.
From stdpp Require Import gmap strings list fin_maps.

Local Open Scope string_scope.
Local Open Scope list_scope.
Local Open Scope nat_scope.

(** ** Python floats *)

Module PyFloat.

(** A float is a finite value (kept as the rational it denotes), an
    infinity or a NaN.  Only the order comparisons used by the
    [ge=0.0, le=1.0] constraint of [priority] are modelled. *)
Inductive pyfloat :=
| Finite (q : Q)
| PosInf
| NegInf
| NaN.

(** [x >= y] on floats: every comparison with a NaN is false. *)
Definition ge (x y : pyfloat) : bool :=
  match x, y with
  | NaN, _ | _, NaN => false
  | PosInf, _ => true
  | _, NegInf => true
  | NegInf, _ => false
  | _, PosInf => false
  | Finite a, Finite b => Qle_bool b a
  end.

(** [x <= y] on floats. *)
Definition le (x y : pyfloat) : bool := ge y x.

Definition zero : pyfloat := Finite 0.
Definition one : pyfloat := Finite 1.
Definition half : pyfloat := Finite (1 # 2).

End PyFloat.

(** ** The message model *)

Module Msg.
Import PyFloat.

(** [Dict[str, Any]]: the payload is an insertion-ordered mapping from
    strings to arbitrary values; the bus never looks inside. *)
#[local] Unset Elimination Schemes.
Inductive value :=
| VNone
| VBool (b : bool)
| VInt (z : Z)
| VFloat (x : pyfloat)
| VStr (s : string)
| VList (l : list value)
| VDict (d : list (string * value)).
#[local] Set Elimination Schemes.

(** The validated model (class [Message]). *)
Record Message := mkMessage {
  sender : string;
  topic : string;
  payload : list (string * value);
  message_id : string;
  conversation_id : option string;
  in_reply_to : option string;
  timestamp : pyfloat;
  priority : pyfloat;
  token_count : option Z;
  summary : option string
}.

(** The keyword arguments of a call [Message(...)]: every field may be
    left out.  Arguments are taken to be of the declared type, so the
    only validation errors are a missing required field and a priority
    outside its bounds. *)
Record kwargs := mkArgs {
  a_sender : option string;
  a_topic : option string;
  a_payload : option (list (string * value));
  a_message_id : option string;
  a_conversation_id : option string;
  a_in_reply_to : option string;
  a_timestamp : option pyfloat;
  a_priority : option pyfloat;
  a_token_count : option Z;
  a_summary : option string
}.

Inductive error_kind :=
| missing               (* a field without default was not given *)
| greater_than_equal    (* [ge=0.0] violated *)
| less_than_equal.      (* [le=1.0] violated *)

(** A [ValidationError] lists the offending fields in declaration
    order. *)
Definition ValidationError := list (string * error_kind).

Definition required {A} (name : string) (a : option A) : ValidationError :=
  match a with
  | Some _ => []
  | None => [(name, missing)]
  end.

(** [Field(default=0.5, ge=0.0, le=1.0)]: the default is not validated;
    a given value is checked against the upper bound first, then against
    the lower one, and the first bound that fails is the one reported (so
    a NaN, which fails both, is reported as not [le]). *)
Definition check_priority (a : option pyfloat) : ValidationError :=
  match a with
  | None => []
  | Some p =>
      if negb (le p one) then [("priority", less_than_equal)]
      else if negb (ge p zero) then [("priority", greater_than_equal)]
      else []
  end.

Definition validate (a : kwargs) : ValidationError :=
  required "sender" (a_sender a) ++
  required "topic" (a_topic a) ++
  required "payload" (a_payload a) ++
  check_priority (a_priority a).

(** The environment of a construction: what the two default factories
    return, [str(uuid.uuid4())] and [time.time()]. *)
Record factories := mkFactories {
  uuid4 : string;
  time : pyfloat
}.

(** The constructor call on [a]: the model, or the validation error raised by the
    constructor. *)
Definition construct (env : factories) (a : kwargs)
  : Message + ValidationError :=
  match a_sender a, a_topic a, a_payload a, validate a with
  | Some s, Some t, Some p, [] =>
      inl {| sender := s;
             topic := t;
             payload := p;
             message_id := default (uuid4 env) (a_message_id a);
             conversation_id := a_conversation_id a;
             in_reply_to := a_in_reply_to a;
             timestamp := default (time env) (a_timestamp a);
             priority := default half (a_priority a);
             token_count := a_token_count a;
             summary := a_summary a |}
  | _, _, _, errs => inr errs
  end.

(** The call with only the three required fields, as the tests and the
    example write it. *)
Definition args (s t : string) (p : list (string * value)) : kwargs :=
  {| a_sender := Some s; a_topic := Some t; a_payload := Some p;
     a_message_id := None; a_conversation_id := None;
     a_in_reply_to := None; a_timestamp := None; a_priority := None;
     a_token_count := None; a_summary := None |}.

End Msg.

(** ** The bus *)

Module Bus.
Import Msg.

(** A handler is an opaque async callable; the registry only compares
    handlers ([in], [list.remove]), so a handler is modelled by its
    identity. *)
Definition handler := nat.

(** The tasks created by [run] are numbered in creation order. *)
Definition task_id := nat.

(** How an awaited [handler(message)] ends when it is left to run: it
    returns, or an [Exception] escapes it. *)
Inductive outcome :=
| Returned
| Raised.

(** The calls of the [logging] module, with the values that the
    f-strings interpolate. *)
Inductive record :=
| Registering (topic : string)                  (* info, subscribe *)
| Unregistering (topic : string)                (* info, unsubscribe *)
| Publishing (message_id topic : string)        (* debug, publish *)
| NoSubscribers (topic message_id : string)     (* warning, _dispatch *)
| HandlerError (topic message_id : string)      (* exception, _dispatch *)
| RunnerStarting                                (* info, _run_loop *)
| Dequeued (message_id topic : string)          (* debug, _run_loop *)
| CancellationReceived                          (* info, _run_loop *)
| RunnerStopped                                 (* info, _run_loop *)
| AlreadyRunning                                (* warning, run *)
| Stopping.                                     (* info, stop *)

(** What an execution lets an observer see, oldest first: log records,
    the messages taken from the queue, and the begin and end of every
    handler invocation. *)
Inductive obs :=
| Log (r : record)
| Get (t : task_id) (m : Message)
| Call (t : task_id) (h : handler) (m : Message)
| Done (t : task_id) (h : handler) (m : Message) (o : outcome).

(** Where a task running [_run_loop] is suspended.  The coroutine has
    two awaits that can suspend: [self._message_queue.get()], which
    waits while the queue is empty, and [handler(message)] inside the
    [for] loop of [_dispatch]; there the loop variable and the part of
    [all_handlers] not yet iterated are part of the suspended frame.
    Every handler invocation is a suspension point: a handler that runs
    through without suspending is the case in which the turn that ends
    it follows at once. *)
Inductive pc :=
| Created
| AwaitGet
| AwaitHandler (m : Message) (h : handler) (rest : list handler)
| Finished.

(** A task: its suspension point and whether [cancel()] was requested
    and not yet delivered. *)
Record task := mkTask {
  at_pc : pc;
  must_cancel : bool
}.

(** The fields of an [AgentProtocol] instance, the tasks its [run] has
    created, and the trace of what happened so far. *)
Record state := mkState {
  _subscribers : gmap string (list handler);
  _message_queue : list Message;
  _is_running : bool;
  _runner_task : option task_id;
  tasks : list task;
  trace : list obs
}.

(** [AgentProtocol()] *)
Definition __init__ : state :=
  {| _subscribers := ∅; _message_queue := []; _is_running := false;
     _runner_task := None; tasks := []; trace := [] |}.

(** *** Field updates *)

Definition set_subscribers (v : gmap string (list handler)) (s : state) :=
  mkState v (_message_queue s) (_is_running s) (_runner_task s)
          (tasks s) (trace s).
Definition set_message_queue (v : list Message) (s : state) :=
  mkState (_subscribers s) v (_is_running s) (_runner_task s)
          (tasks s) (trace s).
Definition set_is_running (v : bool) (s : state) :=
  mkState (_subscribers s) (_message_queue s) v (_runner_task s)
          (tasks s) (trace s).
Definition set_runner_task (v : option task_id) (s : state) :=
  mkState (_subscribers s) (_message_queue s) (_is_running s) v
          (tasks s) (trace s).
Definition set_tasks (v : list task) (s : state) :=
  mkState (_subscribers s) (_message_queue s) (_is_running s)
          (_runner_task s) v (trace s).
Definition observe (o : obs) (s : state) :=
  mkState (_subscribers s) (_message_queue s) (_is_running s)
          (_runner_task s) (tasks s) (trace s ++ [o]).
Definition log (r : record) (s : state) := observe (Log r) s.

(** The task [t] suspends at (or ends in) [p]; a delivered
    cancellation request is consumed. *)
Definition suspend (t : task_id) (p : pc) (s : state) :=
  set_tasks (<[t := mkTask p false]> (tasks s)) s.

(** *** The registry *)

(** [d.get(topic, [])] *)
Definition get (d : gmap string (list handler)) (topic : string)
  : list handler :=
  default [] (d !! topic).

(** [list.remove(x)]: drops the first element equal to [x]. *)
Fixpoint remove (x : handler) (l : list handler) : list handler :=
  match l with
  | [] => []
  | y :: l' => if decide (y = x) then l' else y :: remove x l'
  end.

(** [subscribe]: [_subscribers] is a [defaultdict(list)], so indexing
    a new topic creates its empty list before the append. *)
Definition subscribe (topic : string) (h : handler) (s : state) : state :=
  let s := log (Registering topic) s in
  set_subscribers
    (<[topic := get (_subscribers s) topic ++ [h]]> (_subscribers s)) s.

(** [unsubscribe] *)
Definition unsubscribe (topic : string) (h : handler) (s : state)
  : state :=
  if decide (h ∈ get (_subscribers s) topic) then
    let s := log (Unregistering topic) s in
    set_subscribers
      (<[topic := remove h (get (_subscribers s) topic)]> (_subscribers s))
      s
  else s.

(** *** The queue *)

(** [publish]: the queue is unbounded, so [put] appends at once. *)
Definition publish (m : Message) (s : state) : state :=
  let s := log (Publishing (message_id m) (topic m)) s in
  set_message_queue (_message_queue s ++ [m]) s.

(** *** Dispatch *)

(** [subscribers + wildcard_subscribers]: a new list, so later changes
    of the registry do not reach a dispatch already under way. *)
Definition all_handlers (d : gmap string (list handler)) (m : Message)
  : list handler :=
  get d (topic m) ++ get d "*".

(** The [for] statement of [_dispatch] over the handlers still to
    iterate: with none left the coroutine returns ([false]); else the
    next handler is called with the message and the task suspends in
    its await ([true]). *)
Definition for_handler (t : task_id) (m : Message) (hs : list handler)
    (s : state) : state * bool :=
  match hs with
  | [] => (s, false)
  | h :: rest =>
      (suspend t (AwaitHandler m h rest) (observe (Call t h m) s), true)
  end.

(** [_dispatch], from its entry to its return or first suspension. *)
Definition _dispatch (t : task_id) (m : Message) (s : state)
  : state * bool :=
  let hs := all_handlers (_subscribers s) m in
  match hs with
  | [] => (log (NoSubscribers (topic m) (message_id m)) s, false)
  | _ => for_handler t m hs s
  end.

(** *** The loop *)

(** The statements after the [while] loop; the coroutine ends. *)
Definition after_loop (t : task_id) (s : state) : state :=
  suspend t Finished (log RunnerStopped (set_is_running false s)).

(** The body of the [while] loop from [queue.get()] on, with [q] the
    content of the queue: an empty queue suspends the task; otherwise
    the head is dequeued and dispatched, and when [_dispatch] returns
    without suspending the loop condition is tested and the next
    message is taken. *)
Fixpoint get_loop (t : task_id) (q : list Message) (s : state) : state :=
  match q with
  | [] => suspend t AwaitGet s
  | m :: q' =>
      let s := set_message_queue q' s in
      let s := observe (Get t m) s in
      let s := log (Dequeued (message_id m) (topic m)) s in
      let '(s, suspended) := _dispatch t m s in
      if suspended then s
      else if _is_running s then get_loop t q' s
      else after_loop t s
  end.

(** [while self._is_running: ...] *)
Definition while_is_running (t : task_id) (s : state) : state :=
  if _is_running s then get_loop t (_message_queue s) s
  else after_loop t s.

(** [_run_loop] from its first statement. *)
Definition _run_loop (t : task_id) (s : state) : state :=
  while_is_running t (log RunnerStarting (set_is_running true s)).

(** A [CancelledError] thrown at an await of the loop.  Inside
    [_dispatch] it is no [Exception], so [except Exception] lets it
    pass; the handler of [_run_loop] logs and leaves the loop. *)
Definition cancelled (t : task_id) (s : state) : state :=
  after_loop t (log CancellationReceived s).

(** The awaited handler ended with [o]: an exception is logged, and the
    [for] loop goes on; when it is exhausted [_dispatch] returns and the
    [while] condition is tested. *)
Definition handler_done (t : task_id) (m : Message) (h : handler)
    (rest : list handler) (o : outcome) (s : state) : state :=
  let s := observe (Done t h m o) s in
  let s := match o with
           | Returned => s
           | Raised => log (HandlerError (topic m) (message_id m)) s
           end in
  let '(s, suspended) := for_handler t m rest s in
  if suspended then s else while_is_running t s.

(** The event loop gives the task [t] its turn.  A task with a pending
    cancellation gets the [CancelledError] at the await it is suspended
    on (a coroutine not yet started ends without running any of its
    body); otherwise it runs on to its next suspension.  [o] tells how
    the awaited handler ended, for a task suspended in one. *)
Definition resume (t : task_id) (o : outcome) (s : state) : state :=
  match tasks s !! t with
  | None => s
  | Some tk =>
      match at_pc tk, must_cancel tk with
      | Finished, _ => s
      | Created, true => suspend t Finished s
      | Created, false => _run_loop t s
      | AwaitGet, true => cancelled t s
      | AwaitGet, false => get_loop t (_message_queue s) s
      | AwaitHandler _ _ _, true => cancelled t s
      | AwaitHandler m h rest, false => handler_done t m h rest o s
      end
  end.

(** *** Handlers that raise what is no [Exception] *)

(** All the ways in which an awaited [handler(message)] may end: by an
    [outcome], which [_dispatch] survives, or by an exception that does
    not derive from [Exception] and that [except Exception] therefore
    does not catch: an [asyncio.CancelledError] that the handler raises
    itself, or another [BaseException] such as [KeyboardInterrupt] or
    [SystemExit]. *)
Inductive ending :=
| Ended (o : outcome)
| RaisedCancelled
| RaisedBase.

(** A [BaseException] other than [CancelledError] comes out of
    [_dispatch] and then out of [_run_loop], whose only [except] clause
    is for [CancelledError]: the coroutine ends there.  The statements
    after the loop are not run, so [_is_running] keeps its value and
    nothing is logged. *)
Definition escaped (t : task_id) (s : state) : state :=
  suspend t Finished s.

(** The turn of the task [t] in which the handler that it awaits ends by
    [e].  A [CancelledError] raised by the handler reaches [_run_loop]
    like a cancellation request.  For a task that is not suspended in a
    handler, or whose cancellation is pending, the turn is the one of
    [resume]. *)
Definition deliver (t : task_id) (e : ending) (s : state) : state :=
  match e with
  | Ended o => resume t o s
  | RaisedCancelled | RaisedBase =>
      match tasks s !! t with
      | Some (mkTask (AwaitHandler _ _ _) false) =>
          match e with
          | RaisedCancelled => cancelled t s
          | _ => escaped t s
          end
      | _ => resume t Returned s
      end
  end.

(** *** Lifecycle *)

(** [asyncio.create_task(self._run_loop())] *)
Definition create_task (s : state) : state * task_id :=
  (set_tasks (tasks s ++ [mkTask Created false]) s, length (tasks s)).

(** [Task.cancel()]: no effect on a task that is done. *)
Definition cancel (t : task_id) (s : state) : state :=
  match tasks s !! t with
  | None => s
  | Some tk =>
      match at_pc tk with
      | Finished => s
      | p => set_tasks (<[t := mkTask p true]> (tasks s)) s
      end
  end.

(** [run] *)
Definition run (s : state) : state :=
  if negb (_is_running s) && bool_decide (_runner_task s = None) then
    let '(s, t) := create_task s in
    set_runner_task (Some t) s
  else log AlreadyRunning s.

(** [stop] *)
Definition stop (s : state) : state :=
  let s := log Stopping s in
  let s := set_is_running false s in
  match _runner_task s with
  | Some t => set_runner_task None (cancel t s)
  | None => s
  end.

(** *** Executions *)

(** The calls made on the bus by the other tasks, and the turns that
    the event loop gives to the tasks of the bus.  The methods other
    than [_run_loop] never suspend (the queue is unbounded), so each
    call is one atomic step. *)
Inductive event :=
| Subscribe (topic : string) (h : handler)
| Unsubscribe (topic : string) (h : handler)
| Publish (m : Message)
| Run
| Stop
| Resume (t : task_id) (o : outcome).

Definition step (s : state) (e : event) : state :=
  match e with
  | Subscribe topic h => subscribe topic h s
  | Unsubscribe topic h => unsubscribe topic h s
  | Publish m => publish m s
  | Run => run s
  | Stop => stop s
  | Resume t o => resume t o s
  end.

Definition exec (s : state) (es : list event) : state :=
  foldl step s es.

(** *** Reading a trace *)

(** The handler invocations, in order. *)
Definition calls (tr : list obs) : list (handler * Message) :=
  omap (λ o, match o with Call _ h m => Some (h, m) | _ => None end) tr.

(** The messages taken from the queue, in order. *)
Definition dequeued (tr : list obs) : list Message :=
  omap (λ o, match o with Get _ m => Some m | _ => None end) tr.

(** The log records, in order. *)
Definition logged (tr : list obs) : list record :=
  omap (λ o, match o with Log r => Some r | _ => None end) tr.

(** The handler invocations made by the task [t], in order. *)
Definition calls_by (t : task_id) (tr : list obs)
  : list (handler * Message) :=
  omap (λ o, match o with
             | Call t' h m => if decide (t' = t) then Some (h, m) else None
             | _ => None
             end) tr.

(** The number of turns that a sequence of events gives to [t]. *)
Definition is_turn (t : task_id) (e : event) : bool :=
  match e with
  | Resume t' _ => bool_decide (t' = t)
  | _ => false
  end.

Definition turns (t : task_id) (es : list event) : nat :=
  length (filter (λ e, is_turn t e) es).

(** The message dequeued last in [tr], or [cur] when [tr] dequeues
    none. *)
Definition current (cur : option Message) (tr : list obs)
  : option Message :=
  match last (dequeued tr) with
  | Some m => Some m
  | None => cur
  end.

(** Every handler invocation in [tr] begins and ends with the message
    dequeued last before it; [cur] is the message dequeued last before
    [tr]. *)
Fixpoint in_order (cur : option Message) (tr : list obs) : Prop :=
  match tr with
  | [] => True
  | Log _ :: tr => in_order cur tr
  | Get _ m :: tr => in_order (Some m) tr
  | Call _ _ m :: tr => cur = Some m ∧ in_order cur tr
  | Done _ _ m _ :: tr => cur = Some m ∧ in_order cur tr
  end.

(** The task that an observation is attributed to. *)
Definition actor (o : obs) : option task_id :=
  match o with
  | Log _ => None
  | Get t _ | Call t _ _ | Done t _ _ _ => Some t
  end.

(** A task is live when it has not ended and no cancellation is on its
    way: a live task will go on dequeuing and dispatching. *)
Definition live (tk : task) : bool :=
  match at_pc tk with
  | Finished => false
  | _ => negb (must_cancel tk)
  end.

(** The message and the handlers in the suspended [for] loop of a
    task: the handler being awaited, then those still to come. *)
Definition frame (p : pc) : option (Message * list handler) :=
  match p with
  | AwaitHandler m h rest => Some (m, h :: rest)
  | _ => None
  end.

(** Where the handler of an invocation may come from: the registry
    [d] read when the message is dequeued, or the frame [pre] that the
    task was suspended in. *)
Definition allowed (pre : option (Message * list handler))
    (d : gmap string (list handler)) (h : handler) (m : Message) : Prop :=
  h ∈ all_handlers d m ∨ ∃ hs, pre = Some (m, hs) ∧ h ∈ hs.

(** What one turn of the task [t] does: resumed in the frame [pre], it
    runs from [s] to [s'], is suspended at [p] (or has ended) and has
    emitted [out]. *)
Record turn (t : task_id) (pre : option (Message * list handler))
    (s s' : state) (p : pc) (out : list obs) : Prop := mkTurn {
  turn_subscribers : _subscribers s' = _subscribers s;
  turn_runner_task : _runner_task s' = _runner_task s;
  turn_tasks : tasks s' = <[t := mkTask p false]> (tasks s);
  turn_trace : trace s' = trace s ++ out;
  turn_queue : dequeued out ++ _message_queue s' = _message_queue s;
  turn_actor : ∀ o t', o ∈ out → actor o = Some t' → t' = t;
  turn_order : in_order (fst <$> pre) out;
  turn_pc : p ≠ Created;
  turn_current : ∀ m hs, frame p = Some (m, hs) →
                 current (fst <$> pre) out = Some m;
  turn_calls : ∀ t' h m, Call t' h m ∈ out →
               allowed pre (_subscribers s) h m;
  turn_frame : ∀ m hs h, frame p = Some (m, hs) → h ∈ hs →
               allowed pre (_subscribers s) h m
}.

(** The frame in which a task continues when it is resumed: the
    handlers after the awaited one, unless a cancellation is pending. *)
Definition resumed_frame (tk : task) : option (Message * list handler) :=
  match at_pc tk, must_cancel tk with
  | AwaitHandler m _ rest, false => Some (m, rest)
  | _, _ => None
  end.

(** At most one task is live, the one that [_runner_task] refers
    to. *)
Definition one_loop (s : state) : Prop :=
  ∀ t tk, tasks s !! t = Some tk → live tk = true → _runner_task s = Some t.

(** A live task suspended in a handler is dispatching the message
    dequeued last. *)
Definition dispatching_current (s : state) : Prop :=
  ∀ t tk m hs,
    tasks s !! t = Some tk → live tk = true →
    frame (at_pc tk) = Some (m, hs) → current None (trace s) = Some m.

(** The invariant of the executions that start with a new bus. *)
Definition invariant (s : state) : Prop :=
  one_loop s ∧ dispatching_current s ∧ in_order None (trace s).

(** The state [s] with the trace [tr] in place of its own: two states
    are the same up to what was observed when one is a [retrace] of the
    other. *)
Definition retrace (tr : list obs) (s : state) : state :=
  mkState (_subscribers s) (_message_queue s) (_is_running s)
          (_runner_task s) (tasks s) tr.

(** A function on states is oblivious of the trace when it only appends
    to it: on a state with another trace it does the same and appends the
    same. *)
Definition oblivious (f : state → state) : Prop :=
  ∀ s, ∃ out, ∀ tr, f (retrace tr s) = retrace (tr ++ out) (f s).

(** The events with every handler returning instead of raising. *)
Definition calm (es : list event) : list event :=
  map (λ e, match e with Resume t _ => Resume t Returned | _ => e end) es.

(** A trace without the marks that a raising handler leaves: the error
    records are dropped and every invocation ends by a return. *)
Definition without_errors (tr : list obs) : list obs :=
  omap (λ o, match o with
             | Log (HandlerError _ _) => None
             | Done t h m _ => Some (Done t h m Returned)
             | _ => Some o
             end) tr.

(** The handler [h] is not going to be invoked with [m]: it is not
    registered for the topic of [m] nor for the wildcard, no dispatch of
    [m] under way has it among the handlers still to come, and it has not
    been invoked with [m] since the trace was [tr0]. *)
Definition unreachable (h : handler) (m : Message) (tr0 : list obs)
    (s : state) : Prop :=
  (h ∉ all_handlers (_subscribers s) m)
  ∧ (∀ t tk h' rest, tasks s !! t = Some tk →
                     at_pc tk = AwaitHandler m h' rest → h ∉ rest)
  ∧ (∃ out, trace s = tr0 ++ out ∧ ∀ t, Call t h m ∉ out).

(** The messages published by a sequence of events, in order. *)
Definition published (es : list event) : list Message :=
  omap (λ e, match e with Publish m => Some m | _ => None end) es.

End Bus.

(** ** The scenario of the example *)

Module Scenario.
Import PyFloat Msg Bus.

(** The two handlers of [pubsub_example.py], and a third one. *)
Definition worker_agent_handler : handler := 1.
Definition supervisor_agent_handler : handler := 2.
Definition audit_handler : handler := 3.

(** A message as [start_new_task_tool] builds it, with the id that the
    factory has drawn. *)
Definition message (id topic : string) : Message :=
  {| sender := "start_new_task_tool"; topic := topic;
     payload := [("task_name", VStr "process_invoices")];
     message_id := id; conversation_id := None; in_reply_to := None;
     timestamp := Finite 17; priority := Finite (8 # 10);
     token_count := None; summary := None |}.

Definition task_started : Message := message "m1" "tasks.start".
Definition task_finished : Message := message "m2" "tasks.done".
Definition broadcast : Message := message "m3" "*".

(** The registrations of the example, and the bus started. *)
Definition example_bus : state :=
  exec __init__
    [Subscribe "tasks.start" worker_agent_handler;
     Subscribe "*" supervisor_agent_handler;
     Run].

End Scenario.

(** ** Further vocabulary for executions *)

Module Views.
Import Msg Bus.

(** The calls that change the registry. *)
Definition is_registry_call (e : event) : bool :=
  match e with
  | Subscribe _ _ | Unsubscribe _ _ => true
  | _ => false
  end.

(** The registrations of [h] in a list of handlers. *)
Definition registrations (h : handler) (l : list handler) : nat :=
  count_occ Nat.eq_dec l h.

(** No task is live: every task has ended or is about to end by a
    cancellation. *)
Definition idle (s : state) : Prop :=
  ∀ t tk, tasks s !! t = Some tk → live tk = false.

(** A bus at rest: no live task, the flag clear, no handle kept. *)
Definition at_rest (s : state) : Prop :=
  idle s ∧ _is_running s = false ∧ _runner_task s = None.

(** What the loop emits for a message without handlers. *)
Definition unhandled (t : task_id) (m : Message) : list obs :=
  [Get t m; Log (Dequeued (message_id m) (topic m));
   Log (NoSubscribers (topic m) (message_id m))].

(** The begin and the end of a handler invocation. *)
Inductive action :=
| Begin (h : handler) (m : Message)
| Finish (h : handler) (m : Message).

(** The invocations that the task [t] begins and ends, in order. *)
Definition actions (t : task_id) (tr : list obs) : list action :=
  omap (λ o, match o with
             | Call t' h m =>
                 if decide (t' = t) then Some (Begin h m) else None
             | Done t' h m _ =>
                 if decide (t' = t) then Some (Finish h m) else None
             | _ => None
             end) tr.

(** One invocation at a time: an invocation begins only when none is
    open, and the one that ends is the one that is open. *)
Fixpoint sequential (open : option (handler * Message)) (l : list action)
  : Prop :=
  match l with
  | [] => True
  | Begin h m :: l => open = None ∧ sequential (Some (h, m)) l
  | Finish h m :: l => open = Some (h, m) ∧ sequential None l
  end.

(** The invocation that is open after [l]. *)
Fixpoint opened (open : option (handler * Message)) (l : list action)
  : option (handler * Message) :=
  match l with
  | [] => open
  | Begin h m :: l => opened (Some (h, m)) l
  | Finish _ _ :: l => opened None l
  end.

(** The invocation that a suspended task is awaiting. *)
Definition awaited (p : pc) : option (handler * Message) :=
  match p with
  | AwaitHandler m h _ => Some (h, m)
  | _ => None
  end.

(** The invariant behind [sequential], for the task [t]. *)
Definition one_at_a_time (t : task_id) (s : state) : Prop :=
  sequential None (actions t (trace s))
  ∧ (∀ tk, tasks s !! t = Some tk → at_pc tk ≠ Finished →
           opened None (actions t (trace s)) = awaited (at_pc tk))
  ∧ (tasks s !! t = None → actions t (trace s) = []).

(** Every message dequeued in [tr] is logged as dequeued and then
    either reported as having no subscribers or handed to a handler by
    the task that dequeued it. *)
Definition accounted (tr : list obs) : Prop :=
  ∀ t m, Get t m ∈ tr →
         Log (Dequeued (message_id m) (topic m)) ∈ tr
         ∧ (Log (NoSubscribers (topic m) (message_id m)) ∈ tr
            ∨ ∃ h, Call t h m ∈ tr).

(** At every dequeue in [tr], by whichever task, the task [t] has no
    invocation open; [open] is the invocation of [t] that is open before
    [tr]. *)
Fixpoint gets_closed (t : task_id) (open : option (handler * Message))
    (tr : list obs) : Prop :=
  match tr with
  | [] => True
  | Log _ :: tr => gets_closed t open tr
  | Get _ _ :: tr => open = None ∧ gets_closed t open tr
  | Call t' h m :: tr =>
      gets_closed t (if decide (t' = t) then Some (h, m) else open) tr
  | Done t' _ _ _ :: tr =>
      gets_closed t (if decide (t' = t) then None else open) tr
  end.

(** The invariant of the executions without [stop]: besides [invariant],
    every task is live, the flag is set once a task has started, and at
    every dequeue all invocations have ended. *)
Definition steady (s : state) : Prop :=
  invariant s
  ∧ (∀ t tk, tasks s !! t = Some tk →
             live tk = true ∧ (at_pc tk ≠ Created → _is_running s = true))
  ∧ (∀ t, one_at_a_time t s ∧ gets_closed t None (trace s)).

End Views.

(** * Properties *)

(** ** Construction of messages *)

Module MsgProps.
Import PyFloat Msg.

(** [check_priority] accepts a given value exactly when it lies in the
    closed unit interval. *)
Lemma check_priority_nil (p : pyfloat) :
  check_priority (Some p) = [] ↔ ge p zero && le p one = true.
Proof.
  unfold check_priority.
  destruct (ge p zero), (le p one); simpl; split; congruence.
Qed.

Lemma validate_nil (a : kwargs) :
  validate a = [] ↔
  is_Some (a_sender a) ∧ is_Some (a_topic a) ∧ is_Some (a_payload a) ∧
  check_priority (a_priority a) = [].
Proof.
  unfold validate, required.
  destruct (a_sender a), (a_topic a), (a_payload a); simpl;
    (split; [intros H; try discriminate; eauto 6|]);
    intros (H1 & H2 & H3 & H4); try done;
    solve [ by apply is_Some_None in H1
          | by apply is_Some_None in H2
          | by apply is_Some_None in H3 ].
Qed.

(** The constructor raises exactly the non-empty findings of
    [validate]. *)
Lemma construct_inr (env : factories) (a : kwargs) (errs : ValidationError) :
  construct env a = inr errs ↔ validate a = errs ∧ errs ≠ [].
Proof.
  unfold construct.
  destruct (validate a) as [|e l] eqn:Hv.
  - apply validate_nil in Hv as ([s Hs] & [t Ht] & [p Hp] & _).
    rewrite Hs, Ht, Hp. split; [discriminate | intros [<- ?]; done].
  - destruct (a_sender a), (a_topic a), (a_payload a);
      (split; [intros [= <-]; done | intros [<- _]; done]).
Qed.

(** C5, as stated, fails: a message whose topic is the empty string is
    constructed like any other. *)
Lemma empty_topic_is_accepted :
  ∃ m, construct (mkFactories "0b9f" (Finite 17)) (args "tool" "" []) = inl m
       ∧ topic m = "".
Proof. eexists; split; reflexivity. Qed.

(** C5 (amended): construction is rejected exactly when [sender],
    [topic] or [payload] is missing or a given [priority] lies outside
    [0.0, 1.0]; the topic may be any string.  Otherwise it succeeds
    with the given fields, and [message_id], [timestamp] and [priority]
    take their defaults (a fresh uuid, the current time, 0.5) when they
    are not given. *)
Theorem construct_validates (env : factories) (a : kwargs) :
  ((∃ errs, construct env a = inr errs) ↔
     a_sender a = None ∨ a_topic a = None ∨ a_payload a = None ∨
     ∃ p, a_priority a = Some p ∧ ge p zero && le p one = false)
  ∧ ∀ s t p,
      a_sender a = Some s → a_topic a = Some t → a_payload a = Some p →
      (∀ x, a_priority a = Some x → ge x zero && le x one = true) →
      construct env a =
        inl {| sender := s; topic := t; payload := p;
               message_id := default (uuid4 env) (a_message_id a);
               conversation_id := a_conversation_id a;
               in_reply_to := a_in_reply_to a;
               timestamp := default (time env) (a_timestamp a);
               priority := default half (a_priority a);
               token_count := a_token_count a;
               summary := a_summary a |}.
Proof.
  split.
  - split.
    + intros [errs [Hv Hne]%construct_inr].
      destruct (a_sender a) eqn:Hs; [|by left].
      destruct (a_topic a) eqn:Ht; [|by right; left].
      destruct (a_payload a) eqn:Hp; [|by right; right; left].
      right; right; right.
      destruct (a_priority a) as [x|] eqn:Hx.
      * exists x; split; [done|].
        destruct (ge x zero && le x one) eqn:Hb; [|done].
        apply check_priority_nil in Hb.
        exfalso; apply Hne; rewrite <- Hv.
        unfold validate; rewrite Hs, Ht, Hp, Hx; simpl. done.
      * exfalso; apply Hne; rewrite <- Hv.
        unfold validate; rewrite Hs, Ht, Hp, Hx; done.
    + intros H. exists (validate a). apply construct_inr; split; [done|].
      intros Hnil%validate_nil.
      destruct Hnil as ([s Hs] & [t Ht] & [p Hp] & Hc).
      destruct H as [H|[H|[H|(x & Hx & Hb)]]]; try congruence.
      rewrite Hx in Hc. apply check_priority_nil in Hc. congruence.
  - intros s t p Hs Ht Hp Hx.
    assert (validate a = []) as Hv.
    { apply validate_nil. rewrite Hs, Ht, Hp. repeat split; eauto.
      destruct (a_priority a) as [x|]; [|done].
      by apply check_priority_nil, Hx. }
    unfold construct. by rewrite Hs, Ht, Hp, Hv.
Qed.

(** The call of the example, [priority=0.8], is accepted. *)
Lemma construct_validates_witness :
  construct (mkFactories "0b9f" (Finite 17))
    (mkArgs (Some "start_new_task_tool") (Some "tasks.start") (Some [])
            None None None None (Some (Finite (8 # 10))) None None)
  = inl (mkMessage "start_new_task_tool" "tasks.start" [] "0b9f" None None
           (Finite 17) (Finite (8 # 10)) None None).
Proof.
  apply construct_validates; [reflexivity..|].
  intros x [= <-]. reflexivity.
Defined.

End MsgProps.

(** ** Basic facts about the bus *)

Module BusFacts.
Import Msg Bus.

(** *** Traces *)

Lemma calls_app (a b : list obs) : calls (a ++ b) = calls a ++ calls b.
Proof. apply omap_app. Qed.

Lemma dequeued_app (a b : list obs) :
  dequeued (a ++ b) = dequeued a ++ dequeued b.
Proof. apply omap_app. Qed.

Lemma logged_app (a b : list obs) :
  logged (a ++ b) = logged a ++ logged b.
Proof. apply omap_app. Qed.

Lemma calls_by_app (t : task_id) (a b : list obs) :
  calls_by t (a ++ b) = calls_by t a ++ calls_by t b.
Proof. apply omap_app. Qed.

Lemma published_app (a b : list event) :
  published (a ++ b) = published a ++ published b.
Proof. apply omap_app. Qed.

Lemma calls_by_call (t : task_id) (h : handler) (m : Message) :
  calls_by t [Call t h m] = [(h, m)].
Proof. unfold calls_by; simpl. by rewrite decide_True. Qed.

Lemma calls_by_call_ne (t t' : task_id) (h : handler) (m : Message) :
  t' ≠ t → calls_by t [Call t' h m] = [].
Proof. intros. unfold calls_by; simpl. by rewrite decide_False. Qed.

Lemma exec_app (s : state) (es1 es2 : list event) :
  exec s (es1 ++ es2) = exec (exec s es1) es2.
Proof. apply foldl_app. Qed.

Lemma exec_cons (s : state) (e : event) (es : list event) :
  exec s (e :: es) = exec (step s e) es.
Proof. reflexivity. Qed.

Lemma exec_snoc (s : state) (e : event) (es : list event) :
  exec s (es ++ [e]) = step (exec s es) e.
Proof. by rewrite exec_app. Qed.

(** A property of all executions is proved by an invariant. *)
Lemma exec_invariant (P : state → Prop) (s : state) :
  P s → (∀ s' e, P s' → P (step s' e)) → ∀ es, P (exec s es).
Proof.
  intros H0 Hstep es. revert s H0.
  induction es as [|e es IH]; intros s H0; [done|].
  rewrite exec_cons. apply IH, Hstep, H0.
Qed.

(** *** The registry *)

Lemma get_insert (d : gmap string (list handler)) (k k' : string)
    (l : list handler) :
  get (<[k := l]> d) k' = if decide (k = k') then l else get d k'.
Proof. unfold get. rewrite lookup_insert. by case_decide. Qed.

Lemma get_empty (k : string) : get ∅ k = [].
Proof. unfold get. by rewrite lookup_empty. Qed.

Lemma count_remove (x y : handler) (l : list handler) :
  count_occ Nat.eq_dec (remove x l) y =
  if decide (y = x) then Nat.pred (count_occ Nat.eq_dec l y)
  else count_occ Nat.eq_dec l y.
Proof.
  induction l as [|z l IH]; simpl.
  - by case_decide.
  - destruct (decide (z = x)) as [->|Hzx]; simpl.
    + destruct (Nat.eq_dec x y), (decide (y = x)); simplify_eq; done.
    + rewrite IH.
      destruct (Nat.eq_dec z y), (decide (y = x)); simplify_eq; done.
Qed.

Lemma elem_of_count (x : handler) (l : list handler) :
  x ∈ l ↔ 0 < count_occ Nat.eq_dec l x.
Proof. rewrite list_elem_of_In. apply count_occ_In. Qed.

(** After [list.remove], a handler that occurred at most once is
    gone. *)
Lemma remove_once (x : handler) (l : list handler) :
  count_occ Nat.eq_dec l x ≤ 1 → x ∉ remove x l.
Proof.
  intros H. rewrite elem_of_count, count_remove.
  destruct (decide (x = x)); [lia|done].
Qed.

Lemma elem_of_remove (x y : handler) (l : list handler) :
  y ∈ remove x l → y ∈ l.
Proof.
  rewrite !elem_of_count, count_remove. case_decide; lia.
Qed.

(** *** One turn of a task *)

Lemma current_get (cur : option Message) (t : task_id) (m : Message)
    (tr : list obs) :
  current cur (Get t m :: tr) = current (Some m) tr.
Proof.
  unfold current, dequeued. simpl. rewrite last_cons.
  by destruct (last _).
Qed.

Lemma current_not_get (cur : option Message) (o : obs) (tr : list obs) :
  (∀ t m, o ≠ Get t m) → current cur (o :: tr) = current cur tr.
Proof.
  intros H. unfold current, dequeued. destruct o; simpl; try done.
  by destruct (H t m).
Qed.

Lemma allowed_nil (pre : option (Message * list handler))
    (d : gmap string (list handler)) (h : handler) (m m' : Message) :
  allowed (Some (m', [])) d h m → allowed pre d h m.
Proof.
  intros [H|(hs & [= <- <-] & H)]; [by left|].
  by apply elem_of_nil in H.
Qed.

Ltac turn_elems :=
  repeat match goal with
         | H : _ ∈ [] |- _ => by apply elem_of_nil in H
         | H : _ ∈ _ :: _ |- _ => apply elem_of_cons in H as [H|H]
         | H : _ ∈ _ ++ _ |- _ => apply elem_of_app in H as [H|H]
         end; simplify_eq/=.

Lemma after_loop_turn (t : task_id) (pre : option (Message * list handler))
    (s : state) :
  turn t pre s (after_loop t s) Finished [Log RunnerStopped].
Proof. split; simpl; try done; intros; turn_elems. Qed.

Lemma get_loop_turn (t : task_id) (pre : option (Message * list handler))
    (q : list Message) (s : state) :
  q = _message_queue s →
  ∃ p out, turn t pre s (get_loop t q s) p out.
Proof.
  revert pre s. induction q as [|m q IH]; intros pre s Hq; simpl.
  - exists AwaitGet, []. split; simpl; try done.
    + by rewrite app_nil_r.
    + intros; turn_elems.
    + intros; turn_elems.
  - unfold _dispatch. simpl.
    destruct (all_handlers (_subscribers s) m) as [|h rest] eqn:Hall; simpl.
    + destruct (_is_running s) eqn:Hrun.
      * edestruct (IH (Some (m, []))
                   (log (NoSubscribers (topic m) (message_id m))
                   (log (Dequeued (message_id m) (topic m))
                      (observe (Get t m) (set_message_queue q s)))))
          as (p & out & Ht); [done|].
        exists p, ([Get t m; Log (Dequeued (message_id m) (topic m));
                    Log (NoSubscribers (topic m) (message_id m))] ++ out).
        destruct Ht. simpl in *. split; simpl; try done.
        -- rewrite turn_trace0. by rewrite <- !app_assoc.
        -- by rewrite turn_queue0.
        -- intros; turn_elems; eauto.
        -- intros m0 hs Hf. rewrite current_get, !current_not_get by done.
           eauto.
        -- intros t' h0 m0 Hin; turn_elems.
           by apply (allowed_nil _ _ _ _ m), (turn_calls0 t').
        -- intros m0 hs h0 Hf Hin.
           by apply (allowed_nil _ _ _ _ m), (turn_frame0 _ hs).
      * exists Finished, [Get t m; Log (Dequeued (message_id m) (topic m));
                          Log (NoSubscribers (topic m) (message_id m));
                          Log RunnerStopped].
        split; simpl; try done.
        -- by rewrite <- !app_assoc.
        -- intros; turn_elems; eauto.
        -- intros; turn_elems.
    + exists (AwaitHandler m h rest),
             [Get t m; Log (Dequeued (message_id m) (topic m)); Call t h m].
      split; simpl; try done.
      * by rewrite <- !app_assoc.
      * intros; turn_elems; eauto.
      * intros m0 hs [= <- <-]. done.
      * intros; turn_elems. left. rewrite Hall. by left.
      * intros m0 hs h0 [= <- <-] Hin. left. by rewrite Hall.
Qed.

Lemma current_app (cur : option Message) (a b : list obs) :
  current cur (a ++ b) = current (current cur a) b.
Proof.
  unfold current. rewrite dequeued_app.
  destruct (dequeued b) as [|m l] eqn:Hb using rev_ind.
  - rewrite app_nil_r. simpl. by destruct (last (dequeued a)).
  - rewrite app_assoc, !last_snoc. done.
Qed.

Lemma in_order_app (cur : option Message) (a b : list obs) :
  in_order cur (a ++ b) ↔ in_order cur a ∧ in_order (current cur a) b.
Proof.
  revert cur. induction a as [|o a IH]; intros cur; simpl.
  - unfold current; simpl. tauto.
  - destruct o; simpl.
    + rewrite IH, current_not_get by done. tauto.
    + rewrite IH, current_get. tauto.
    + rewrite IH, current_not_get by done. tauto.
    + rewrite IH, current_not_get by done. tauto.
Qed.

Lemma current_no_get (cur : option Message) (tr : list obs) :
  dequeued tr = [] → current cur tr = cur.
Proof. unfold current. by intros ->. Qed.

(** A turn that first emits [pfx] without touching the queue or the
    tasks, then goes on as a turn from the state reached. *)
Lemma turn_after (t : task_id) (pre : option (Message * list handler))
    (s s1 s' : state) (p : pc) (pfx out : list obs) :
  _subscribers s1 = _subscribers s →
  _runner_task s1 = _runner_task s →
  tasks s1 = tasks s →
  _message_queue s1 = _message_queue s →
  trace s1 = trace s ++ pfx →
  dequeued pfx = [] →
  (∀ o t', o ∈ pfx → actor o = Some t' → t' = t) →
  in_order (fst <$> pre) pfx →
  (∀ t' h m, Call t' h m ∈ pfx → allowed pre (_subscribers s) h m) →
  turn t pre s1 s' p out →
  turn t pre s s' p (pfx ++ out).
Proof.
  intros Hsub Hrun Htasks Hq Htr Hdq Hact Hord Hcalls [].
  split; try congruence.
  - rewrite turn_trace0, Htr. by rewrite app_assoc.
  - rewrite dequeued_app, Hdq. simpl. congruence.
  - intros o t' [?|?]%elem_of_app; eauto.
  - apply in_order_app. split; [done|]. by rewrite current_no_get.
  - intros m hs Hf. rewrite current_app, (current_no_get _ pfx) by done.
    eauto.
  - intros t' h m [?|?]%elem_of_app; [eauto|].
    rewrite <- Hsub. eauto.
  - intros m hs h Hf Hin. rewrite <- Hsub. eauto.
Qed.

Lemma while_is_running_turn (t : task_id)
    (pre : option (Message * list handler)) (s : state) :
  ∃ p out, turn t pre s (while_is_running t s) p out.
Proof.
  unfold while_is_running. destruct (_is_running s).
  - by apply get_loop_turn.
  - eexists _, _. apply after_loop_turn.
Qed.

Lemma _run_loop_turn (t : task_id) (s : state) :
  ∃ p out, turn t None s (_run_loop t s) p out.
Proof.
  unfold _run_loop.
  destruct (while_is_running_turn t None
              (log RunnerStarting (set_is_running true s))) as (p & out & H).
  exists p, ([Log RunnerStarting] ++ out).
  eapply turn_after; [..|exact H]; try done; intros; turn_elems.
Qed.

Lemma cancelled_turn (t : task_id) (s : state) :
  turn t None s (cancelled t s) Finished
       [Log CancellationReceived; Log RunnerStopped].
Proof. split; simpl; try done; [by rewrite <- app_assoc|..]; intros; turn_elems. Qed.

Lemma handler_done_turn (t : task_id) (m : Message) (h : handler)
    (rest : list handler) (o : outcome) (s : state) :
  ∃ p out, turn t (Some (m, rest)) s (handler_done t m h rest o s) p out.
Proof.
  unfold handler_done.
  set (s1 := match o with
             | Returned => observe (Done t h m o) s
             | Raised => log (HandlerError (topic m) (message_id m))
                             (observe (Done t h m o) s)
             end).
  set (pfx := match o with
              | Returned => [Done t h m o]
              | Raised => [Done t h m o;
                           Log (HandlerError (topic m) (message_id m))]
              end).
  assert (trace s1 = trace s ++ pfx) as Htr.
  { unfold s1, pfx. destruct o; simpl; [done|by rewrite <- app_assoc]. }
  assert (_subscribers s1 = _subscribers s ∧ _runner_task s1 = _runner_task s
          ∧ tasks s1 = tasks s ∧ _message_queue s1 = _message_queue s)
    as (Hsub & Hrun & Htasks & Hq) by (unfold s1; by destruct o).
  assert (dequeued pfx = []) as Hdq by (unfold pfx; by destruct o).
  assert (∀ o' t', o' ∈ pfx → actor o' = Some t' → t' = t) as Hact.
  { unfold pfx. intros; destruct o; turn_elems; done. }
  assert (in_order (Some m) pfx) as Hord by (unfold pfx; by destruct o).
  assert (∀ t' h' m', Call t' h' m' ∈ pfx →
                      allowed (Some (m, rest)) (_subscribers s) h' m')
    as Hcalls.
  { unfold pfx. intros; destruct o; turn_elems. }
  clearbody s1 pfx.
  destruct rest as [|h' rest']; simpl.
  - destruct (while_is_running_turn t (Some (m, [])) s1) as (p & out & H).
    exists p, (pfx ++ out). by eapply turn_after.
  - exists (AwaitHandler m h' rest'), (pfx ++ [Call t h' m]).
    eapply turn_after; try done.
    split; simpl; try done.
    + intros; turn_elems; done.
    + intros m0 hs [= <- <-]. done.
    + intros; turn_elems. right. eexists; split; [done|]. by left.
    + intros m0 hs h0 [= <- <-] Hin. right. by eexists.
Qed.

(** A turn of a task that has ended changes nothing; any other turn is
    described by [turn], and a task with a pending cancellation ends
    without dequeuing a message or invoking a handler. *)
Lemma resume_cases (t : task_id) (o : outcome) (s : state) :
  resume t o s = s ∨
  ∃ tk p out,
    tasks s !! t = Some tk ∧ at_pc tk ≠ Finished ∧
    turn t (resumed_frame tk) s (resume t o s) p out ∧
    (live tk = false → p = Finished ∧ ∀ x, x ∈ out → actor x = None).
Proof.
  unfold resume. destruct (tasks s !! t) as [tk|] eqn:Htk; [|by left].
  destruct tk as [p c]. unfold resumed_frame, live; simpl.
  destruct p as [| |m h rest|], c; simpl; try (by left); right.
  - exists (mkTask Created true), Finished, []. split_and!; try done.
    + split; simpl; try done; [by rewrite app_nil_r|..]; intros; turn_elems.
    + intros _. split; [done|]. intros; turn_elems.
  - destruct (_run_loop_turn t s) as (p & out & H).
    exists (mkTask Created false), p, out. by split_and!.
  - eexists (mkTask AwaitGet true), _, _.
    split_and!; [done|done|apply cancelled_turn|].
    intros _. split; [done|]. intros; turn_elems; done.
  - destruct (get_loop_turn t None (_message_queue s) s) as (p & out & H);
      [done|].
    exists (mkTask AwaitGet false), p, out. by split_and!.
  - eexists (mkTask (AwaitHandler m h rest) true), _, _.
    split_and!; [done|done|apply cancelled_turn|].
    intros _. split; [done|]. intros; turn_elems; done.
  - destruct (handler_done_turn t m h rest o s) as (p & out & H).
    exists (mkTask (AwaitHandler m h rest) false), p, out.
    by split_and!.
Qed.

(** *** Effects of the synchronous methods *)

Lemma trace_subscribe (topic : string) (h : handler) (s : state) :
  trace (subscribe topic h s) = trace s ++ [Log (Registering topic)].
Proof. done. Qed.

Lemma trace_unsubscribe (topic : string) (h : handler) (s : state) :
  ∃ out, trace (unsubscribe topic h s) = trace s ++ out
         ∧ ∀ x, x ∈ out → actor x = None.
Proof.
  unfold unsubscribe. case_decide.
  - exists [Log (Unregistering topic)]. split; [done|]. intros; turn_elems; done.
  - exists []. split; [by rewrite app_nil_r|]. intros; turn_elems.
Qed.

Lemma trace_run (s : state) :
  ∃ out, trace (run s) = trace s ++ out ∧ ∀ x, x ∈ out → actor x = None.
Proof.
  unfold run. destruct (_ && _).
  - exists []. split; [by rewrite app_nil_r|]. intros; turn_elems.
  - exists [Log AlreadyRunning]. split; [done|]. intros; turn_elems; done.
Qed.

Lemma cancel_frame (t : task_id) (s : state) :
  _subscribers (cancel t s) = _subscribers s ∧
  _message_queue (cancel t s) = _message_queue s ∧
  _is_running (cancel t s) = _is_running s ∧
  _runner_task (cancel t s) = _runner_task s ∧
  trace (cancel t s) = trace s.
Proof.
  unfold cancel. destruct (tasks s !! t) as [[p c]|]; [|done].
  by destruct p.
Qed.

Lemma trace_stop (s : state) : trace (stop s) = trace s ++ [Log Stopping].
Proof.
  unfold stop. simpl. destruct (_runner_task s); [|done].
  simpl. by rewrite (proj2 (proj2 (proj2 (proj2 (cancel_frame _ _))))).
Qed.

(** Every step extends the trace. *)
Lemma trace_step (s : state) (e : event) :
  ∃ out, trace (step s e) = trace s ++ out.
Proof.
  destruct e as [tp h|tp h|m| | |t o]; simpl.
  - eexists. apply (trace_subscribe tp h).
  - destruct (trace_unsubscribe tp h s) as (out & ? & _). eauto.
  - by eexists.
  - destruct (trace_run s) as (out & ? & _). eauto.
  - eexists. apply trace_stop.
  - destruct (resume_cases t o s) as [->|(tk & p & out & _ & _ & [] & _)].
    + exists []. by rewrite app_nil_r.
    + eauto.
Qed.

Lemma trace_exec (s : state) (es : list event) :
  ∃ out, trace (exec s es) = trace s ++ out.
Proof.
  revert s. induction es as [|e es IH]; intros s.
  - exists []. by rewrite app_nil_r.
  - rewrite exec_cons. destruct (IH (step s e)) as (out2 & ->).
    destruct (trace_step s e) as (out1 & ->).
    exists (out1 ++ out2). by rewrite app_assoc.
Qed.

(** *** The invariant *)

Lemma silent_dequeued (out : list obs) :
  (∀ x, x ∈ out → actor x = None) → dequeued out = [].
Proof.
  induction out as [|x out IH]; intros H; [done|].
  assert (actor x = None) by (apply H; left).
  destruct x; try discriminate. apply IH. intros; apply H. by right.
Qed.

Lemma silent_in_order (cur : option Message) (out : list obs) :
  (∀ x, x ∈ out → actor x = None) → in_order cur out.
Proof.
  induction out as [|x out IH]; intros H; [done|].
  assert (actor x = None) by (apply H; left).
  destruct x; try discriminate. apply IH. intros; apply H. by right.
Qed.

Lemma in_order_weaken (cur : option Message) (tr : list obs) :
  in_order None tr → in_order cur tr.
Proof.
  induction tr as [|x tr IH]; [done|].
  destruct x; simpl; [done|done|by intros [? _]..].
Qed.

Lemma current_weaken (cur : option Message) (tr : list obs) (m : Message) :
  current None tr = Some m → current cur tr = Some m.
Proof. unfold current. by destruct (last _). Qed.

Lemma live_resumed_frame (tk : task) (m : Message) (rest : list handler) :
  resumed_frame tk = Some (m, rest) →
  live tk = true ∧ ∃ h, frame (at_pc tk) = Some (m, h :: rest).
Proof.
  unfold resumed_frame, live. destruct tk as [[| |m' h' rest'|] []]; simpl;
    intros [= <- <-]; eauto.
Qed.

Lemma invariant_quiet (s s' : state) (out : list obs) :
  tasks s' = tasks s → _runner_task s' = _runner_task s →
  trace s' = trace s ++ out → (∀ x, x ∈ out → actor x = None) →
  invariant s → invariant s'.
Proof.
  intros Ht Hr Htr Hout (H1 & H2 & H3). split_and!.
  - intros t tk. rewrite Ht, Hr. apply H1.
  - intros t tk m hs. rewrite Ht, Htr, current_app.
    rewrite (current_no_get _ out) by by apply silent_dequeued.
    apply H2.
  - rewrite Htr. apply in_order_app. split; [done|].
    by apply silent_in_order.
Qed.

Lemma invariant_init : invariant __init__.
Proof. by split_and!. Qed.

Lemma invariant_run (s : state) : invariant s → invariant (run s).
Proof.
  intros Hinv. unfold run.
  destruct (negb (_is_running s) && bool_decide (_runner_task s = None))
    eqn:Hc; [|by apply (invariant_quiet s _ [Log AlreadyRunning]);
                [..|intros; turn_elems|]].
  apply andb_true_iff in Hc as [_ Hnone%bool_decide_eq_true].
  destruct Hinv as (H1 & H2 & H3).
  assert (∀ t tk, tasks s !! t = Some tk → live tk = false) as Hdead.
  { intros t tk Htk. destruct (live tk) eqn:Hl; [|done].
    specialize (H1 t tk Htk Hl). congruence. }
  split_and!; [| |done].
  - intros t tk Htk Hl. simpl in *.
    destruct (decide (t < length (tasks s))) as [Hlt|Hge].
    + rewrite lookup_app_l in Htk by done.
      specialize (Hdead _ _ Htk). congruence.
    + apply lookup_lt_Some in Htk as Hlen. rewrite length_app in Hlen.
      simpl in Hlen. f_equal. lia.
  - intros t tk m hs Htk Hl Hf. simpl in *.
    destruct (decide (t < length (tasks s))) as [Hlt|Hge].
    + rewrite lookup_app_l in Htk by done.
      specialize (Hdead _ _ Htk). congruence.
    + rewrite lookup_app_r in Htk by lia.
      apply list_lookup_singleton_Some in Htk as [_ <-]. done.
Qed.

Lemma cancel_lookup (t t' : task_id) (s : state) (tk : task) :
  tasks (cancel t s) !! t' = Some tk →
  (t' = t ∧ live tk = false) ∨ (t' ≠ t ∧ tasks s !! t' = Some tk).
Proof.
  unfold cancel. destruct (decide (t' = t)) as [->|Hne].
  - destruct (tasks s !! t) as [[p c]|] eqn:Ht; [|congruence].
    intros H. left. split; [done|].
    destruct p; simpl in H;
      try (rewrite list_lookup_insert_eq in H by (by eapply lookup_lt_Some));
      by simplify_eq.
  - intros H. right. split; [done|].
    destruct (tasks s !! t) as [[p c]|] eqn:Ht; [|done].
    destruct p; simpl in H; try done;
      by rewrite list_lookup_insert_ne in H.
Qed.

Lemma invariant_stop (s : state) : invariant s → invariant (stop s).
Proof.
  intros (H1 & H2 & H3).
  assert (∀ t tk, tasks (stop s) !! t = Some tk → live tk = false) as Hdead.
  { unfold stop; simpl. intros t tk.
    destruct (_runner_task s) as [r|] eqn:Hr; simpl.
    - intros [[_ ?]|[Hne Htk]]%cancel_lookup; [done|]. simpl in Htk.
      destruct (live tk) eqn:Hl; [|done].
      specialize (H1 _ _ Htk Hl). congruence.
    - intros Htk. destruct (live tk) eqn:Hl; [|done].
      specialize (H1 _ _ Htk Hl). congruence. }
  split_and!.
  - intros t tk Htk Hl. specialize (Hdead _ _ Htk). congruence.
  - intros t tk m hs Htk Hl. specialize (Hdead _ _ Htk). congruence.
  - rewrite trace_stop. apply in_order_app. by split.
Qed.

Lemma invariant_resume (t : task_id) (o : outcome) (s : state) :
  invariant s → invariant (resume t o s).
Proof.
  intros Hinv.
  destruct (resume_cases t o s)
    as [->|(tk & p & out & Htk & Hpc & Hturn & Hdead)]; [done|].
  destruct Hinv as (H1 & H2 & H3). destruct Hturn.
  assert (t < length (tasks s)) as Hlt by by eapply lookup_lt_Some.
  (* the message that the resumed task was dispatching is the current
     one *)
  assert (∀ m, fst <$> resumed_frame tk = Some m →
               current None (trace s) = Some m) as Hcur.
  { intros m Hm. destruct (resumed_frame tk) as [[m' rest]|] eqn:Hf;
      [|done]. simpl in Hm. simplify_eq.
    apply live_resumed_frame in Hf as (Hl & h & Hf). eauto. }
  split_and!.
  - intros t' tk'. rewrite turn_tasks0, turn_runner_task0.
    destruct (decide (t' = t)) as [->|Hne].
    + rewrite list_lookup_insert_eq by done. intros [= <-] Hl.
      destruct (live tk) eqn:Hltk; [exact (H1 _ _ Htk Hltk)|].
      destruct (Hdead eq_refl) as [-> _]. done.
    + rewrite list_lookup_insert_ne by done. apply H1.
  - intros t' tk' m hs. rewrite turn_tasks0, turn_trace0, current_app.
    destruct (decide (t' = t)) as [->|Hne].
    + rewrite list_lookup_insert_eq by done. intros [= <-] _ Hf. simpl in Hf.
      specialize (turn_current0 _ _ Hf).
      destruct (fst <$> resumed_frame tk) as [m'|] eqn:Hpre.
      * by rewrite (Hcur _ eq_refl).
      * by apply current_weaken.
    + rewrite list_lookup_insert_ne by done. intros Htk' Hl' Hf.
      destruct (live tk) eqn:Hltk.
      * pose proof (H1 _ _ Htk Hltk). pose proof (H1 _ _ Htk' Hl').
        congruence.
      * destruct (Hdead eq_refl) as [_ Hsilent].
        rewrite (current_no_get _ out) by by apply silent_dequeued.
        eauto.
  - rewrite turn_trace0. apply in_order_app. split; [done|].
    destruct (fst <$> resumed_frame tk) as [m'|] eqn:Hpre.
    + by rewrite (Hcur _ eq_refl).
    + by apply in_order_weaken.
Qed.

Lemma invariant_step (s : state) (e : event) :
  invariant s → invariant (step s e).
Proof.
  destruct e as [tp h|tp h|m| | |t o]; simpl.
  - apply (invariant_quiet s _ [Log (Registering tp)]); try done.
    intros; turn_elems; done.
  - destruct (trace_unsubscribe tp h s) as (out & Htr & Hout).
    apply (invariant_quiet s _ out); try done;
      unfold unsubscribe; by case_decide.
  - apply (invariant_quiet s _ [Log (Publishing (message_id m) (topic m))]);
      try done.
    intros; turn_elems; done.
  - apply invariant_run.
  - apply invariant_stop.
  - apply invariant_resume.
Qed.

Lemma invariant_exec (es : list event) : invariant (exec __init__ es).
Proof.
  apply exec_invariant; [apply invariant_init|].
  intros s e. apply invariant_step.
Qed.

(** *** The queue *)

Lemma fifo_step (s : state) (e : event) :
  dequeued (trace (step s e)) ++ _message_queue (step s e) =
  dequeued (trace s) ++ _message_queue s ++ published [e].
Proof.
  destruct e as [tp h|tp h|m| | |t o]; simpl.
  - rewrite dequeued_app. simpl. by rewrite !app_nil_r.
  - unfold unsubscribe. case_decide; simpl.
    + rewrite dequeued_app. simpl. by rewrite !app_nil_r.
    + by rewrite app_nil_r.
  - rewrite dequeued_app. simpl. by rewrite app_nil_r.
  - unfold run. destruct (_ && _); simpl.
    + by rewrite app_nil_r.
    + rewrite dequeued_app. simpl. by rewrite !app_nil_r.
  - rewrite trace_stop, dequeued_app. simpl. rewrite !app_nil_r.
    unfold stop; simpl. destruct (_runner_task s); simpl; [|done].
    by rewrite (proj1 (proj2 (cancel_frame _ _))).
  - rewrite app_nil_r.
    destruct (resume_cases t o s)
      as [->|(tk & p & out & _ & _ & [] & _)]; [done|].
    rewrite turn_trace0, dequeued_app, <- app_assoc. by rewrite turn_queue0.
Qed.

Lemma fifo_exec (s : state) (es : list event) :
  dequeued (trace (exec s es)) ++ _message_queue (exec s es) =
  dequeued (trace s) ++ _message_queue s ++ published es.
Proof.
  revert s. induction es as [|e es IH]; intros s.
  - simpl. by rewrite app_nil_r.
  - rewrite exec_cons, IH, app_assoc, fifo_step.
    change (e :: es) with ([e] ++ es).
    by rewrite published_app, <- !app_assoc.
Qed.

End BusFacts.

(** ** Ordering, lifecycle and frame properties of the executions *)

Module Executions.
Import Msg Bus BusFacts.

Lemma in_order_call (tr1 tr2 : list obs) (o : obs) (m : Message) :
  in_order None (tr1 ++ o :: tr2) →
  (∃ t h, o = Call t h m) ∨ (∃ t h r, o = Done t h m r) →
  last (dequeued tr1) = Some m.
Proof.
  intros [_ H]%in_order_app Ho.
  assert (current None tr1 = Some m) as Hc.
  { destruct Ho as [(t & h & ->)|(t & h & r & ->)]; simpl in H; by destruct H. }
  unfold current in Hc. by destruct (last (dequeued tr1)).
Qed.

Lemma call_dequeued_last (es : list event) (tr1 tr2 : list obs) (o : obs)
    (m : Message) :
  trace (exec __init__ es) = tr1 ++ o :: tr2 →
  (∃ t h, o = Call t h m) ∨ (∃ t h r, o = Done t h m r) →
  last (dequeued tr1) = Some m.
Proof.
  intros Htr. destruct (invariant_exec es) as (_ & _ & Hord).
  rewrite Htr in Hord. by apply (in_order_call tr1 tr2 o).
Qed.

(** C7: in every execution at most one task running the loop is live
    (a task that is not live has ended or ends in its next turn, by the
    cancellation on its way); [run] called while a loop is live, or
    whenever [_is_running] is set or a task handle is kept, only logs
    the warning; [stop] clears the handle and the flag, and a [run]
    after it creates a new task. *)
Theorem one_loop_at_a_time :
  (∀ es t1 t2 tk1 tk2,
     tasks (exec __init__ es) !! t1 = Some tk1 →
     tasks (exec __init__ es) !! t2 = Some tk2 →
     live tk1 = true → live tk2 = true → t1 = t2)
  ∧ (∀ es t tk,
       tasks (exec __init__ es) !! t = Some tk → live tk = true →
       run (exec __init__ es) = log AlreadyRunning (exec __init__ es))
  ∧ (∀ s, _is_running s = true ∨ _runner_task s ≠ None →
          run s = log AlreadyRunning s)
  ∧ (∀ s, _runner_task (stop s) = None ∧ _is_running (stop s) = false ∧
          run (stop s) =
            set_runner_task (Some (length (tasks s)))
              (set_tasks (tasks (stop s) ++ [mkTask Created false])
                         (stop s))).
Proof.
  assert (∀ s, _is_running s = true ∨ _runner_task s ≠ None →
               run s = log AlreadyRunning s) as Hnoop.
  { intros s H. unfold run.
    destruct (_is_running s) eqn:Hi; simpl; [done|].
    destruct H as [?|H]; [done|]. by case_bool_decide. }
  split_and!; [| |done|].
  - intros es t1 t2 tk1 tk2 H1 H2 Hl1 Hl2.
    destruct (invariant_exec es) as (Hone & _).
    pose proof (Hone _ _ H1 Hl1). pose proof (Hone _ _ H2 Hl2). congruence.
  - intros es t tk H Hl. apply Hnoop. right.
    destruct (invariant_exec es) as (Hone & _).
    by rewrite (Hone _ _ H Hl).
  - intros s.
    assert (_runner_task (stop s) = None ∧ _is_running (stop s) = false
            ∧ length (tasks (stop s)) = length (tasks s)) as (Hr & Hi & Hlen).
    { unfold stop; simpl. destruct (_runner_task s) as [r|] eqn:Hrt; simpl;
        [|done].
      destruct (cancel_frame r (set_is_running false (log Stopping s)))
        as (_ & _ & -> & _). split_and!; try done.
      unfold cancel; simpl. destruct (tasks s !! r) as [[p c]|]; [|done].
      destruct p; simpl; by rewrite ?length_insert. }
    split_and!; try done.
    unfold run. rewrite Hi, Hr. simpl. by rewrite Hlen.
Qed.

(** C9: the bus hands the messages on as they are.  [publish] appends
    the very message to the queue and changes nothing else but the
    log, and in every execution the message that a handler is invoked
    with is one of the published messages. *)
Theorem message_is_not_changed :
  (∀ m s, _message_queue (publish m s) = _message_queue s ++ [m])
  ∧ (∀ es t m, Get t m ∈ trace (exec __init__ es) → m ∈ published es)
  ∧ (∀ es t h m, Call t h m ∈ trace (exec __init__ es) → m ∈ published es).
Proof.
  assert (∀ es m, m ∈ dequeued (trace (exec __init__ es)) →
                  m ∈ published es) as Hdq.
  { intros es m H. pose proof (fifo_exec __init__ es) as Hf. simpl in Hf.
    rewrite <- Hf. apply elem_of_app. by left. }
  split_and!; [done| |].
  - intros es t m H. apply Hdq. unfold dequeued.
    apply list_elem_of_omap. by exists (Get t m).
  - intros es t h m [tr1 [tr2 Htr]]%list_elem_of_split.
    assert (last (dequeued tr1) = Some m) as Hlast
      by (eapply call_dequeued_last; eauto).
    apply Hdq. rewrite Htr, dequeued_app. apply elem_of_app. left.
    apply last_Some in Hlast as [l ->]. apply elem_of_app. right. by left.
Qed.

End Executions.

(** ** Dispatch of one message *)

Module Dispatch.
Import Msg Bus BusFacts.

Lemma calls_by_others (t t' : task_id) (out : list obs) :
  t' ≠ t → (∀ x u, x ∈ out → actor x = Some u → u = t') →
  calls_by t out = [].
Proof.
  intros Hne. induction out as [|x out IH]; intros H; [done|].
  change (x :: out) with ([x] ++ out). rewrite calls_by_app, IH.
  - rewrite app_nil_r. destruct x; try done.
    apply calls_by_call_ne. rewrite (H (Call t0 h m) t0); [done|by left|done].
  - intros y u Hy. apply H. by right.
Qed.

Lemma calls_by_silent (t : task_id) (out : list obs) :
  (∀ x, x ∈ out → actor x = None) → calls_by t out = [].
Proof.
  induction out as [|x out IH]; intros H; [done|].
  assert (actor x = None) by (apply H; left).
  destruct x; try discriminate. apply IH. intros; apply H. by right.
Qed.

(** The steps that are neither [stop] nor a turn of [t] leave the task
    [t] and the invocations made by it as they are. *)
Lemma step_other (t : task_id) (tk : task) (s : state) (e : event) :
  e ≠ Stop → is_turn t e = false → tasks s !! t = Some tk →
  tasks (step s e) !! t = Some tk ∧
  calls_by t (trace (step s e)) = calls_by t (trace s).
Proof.
  intros Hstop Hturn Htk.
  destruct e as [tp h|tp h|m| | |t' o]; simpl; try done.
  - split; [done|]. by rewrite calls_by_app, app_nil_r.
  - unfold unsubscribe. case_decide; simpl; [|done].
    split; [done|]. by rewrite calls_by_app, app_nil_r.
  - split; [done|]. by rewrite calls_by_app, app_nil_r.
  - unfold run. destruct (_ && _); simpl.
    + split; [|done]. rewrite lookup_app_l; [done|by eapply lookup_lt_Some].
    + split; [done|]. by rewrite calls_by_app, app_nil_r.
  - simpl in Hturn. apply bool_decide_eq_false in Hturn.
    destruct (resume_cases t' o s)
      as [->|(tk' & p & out & _ & _ & [] & _)]; [done|].
    rewrite turn_tasks0, turn_trace0, calls_by_app.
    rewrite list_lookup_insert_ne by done. split; [done|].
    by rewrite (calls_by_others t t' out Hturn turn_actor0), app_nil_r.
Qed.

(** A turn of a task suspended in a handler that is not the last one:
    the next handler is invoked with the same message. *)
Lemma resume_next (t : task_id) (m : Message) (h h' : handler)
    (rest : list handler) (o : outcome) (s : state) :
  tasks s !! t = Some (mkTask (AwaitHandler m h (h' :: rest)) false) →
  tasks (resume t o s) !! t = Some (mkTask (AwaitHandler m h' rest) false) ∧
  calls_by t (trace (resume t o s)) = calls_by t (trace s) ++ [(h', m)].
Proof.
  intros Htk. unfold resume. rewrite Htk. simpl.
  unfold handler_done. simpl.
  assert (t < length (tasks s)) by by eapply lookup_lt_Some.
  split.
  - destruct o; simpl; by rewrite list_lookup_insert_eq.
  - destruct o; simpl; rewrite !calls_by_app, calls_by_call; simpl;
      by rewrite ?app_nil_r.
Qed.

(** While no [stop] comes, a dispatch under way advances by one handler
    with every turn of its task, whatever else is called on the bus in
    between. *)
Lemma dispatch_progress (es : list event) (s : state) (t : task_id)
    (m : Message) (h : handler) (rest : list handler) :
  tasks s !! t = Some (mkTask (AwaitHandler m h rest) false) →
  Stop ∉ es → turns t es ≤ length rest →
  calls_by t (trace (exec s es)) =
    calls_by t (trace s) ++ map (λ h', (h', m)) (take (turns t es) rest)
  ∧ ∃ h', (h :: rest) !! turns t es = Some h' ∧
          tasks (exec s es) !! t =
            Some (mkTask (AwaitHandler m h' (drop (turns t es) rest)) false).
Proof.
  revert s h rest. induction es as [|e es IH]; intros s h rest Htk Hstop Hn.
  - simpl. rewrite app_nil_r. split; [done|]. exists h. by rewrite drop_0.
  - assert (e ≠ Stop ∧ Stop ∉ es) as [He Hes].
    { split; [intros ->; apply Hstop; by left|].
      intros ?; apply Hstop; by right. }
    rewrite exec_cons. unfold turns in *. rewrite filter_cons in *.
    destruct (is_turn t e) eqn:Hturn; simpl in *.
    + destruct e as [| | | | |t' o]; try done. simpl in Hturn.
      apply bool_decide_eq_true in Hturn as ->.
      destruct rest as [|h' rest]; simpl in Hn; [lia|].
      destruct (resume_next t m h h' rest o s Htk) as [Htk' Hcalls].
      change (step s (Resume t o)) with (resume t o s).
      destruct (IH _ _ _ Htk' Hes) as (-> & Hpc); [lia|].
      rewrite Hcalls, <- app_assoc. done.
    + destruct (step_other t _ s e He Hturn Htk) as [Htk' Hcalls].
      destruct (IH _ _ _ Htk' Hes Hn) as (-> & Hpc).
      by rewrite Hcalls.
Qed.

(** [_dispatch] with at least one handler: the first one is invoked
    and the task suspends. *)
Lemma _dispatch_cons (t : task_id) (m : Message) (s : state) (h : handler)
    (rest : list handler) :
  all_handlers (_subscribers s) m = h :: rest →
  _dispatch t m s =
    (suspend t (AwaitHandler m h rest) (observe (Call t h m) s), true).
Proof. unfold _dispatch. by intros ->. Qed.

(** The turn in which the last handler of a dispatch ends: [_dispatch]
    returns and the loop tests its condition. *)
Lemma resume_last (t : task_id) (m : Message) (h : handler) (o : outcome)
    (s : state) :
  tasks s !! t = Some (mkTask (AwaitHandler m h []) false) →
  resume t o s =
    while_is_running t
      match o with
      | Returned => observe (Done t h m o) s
      | Raised => log (HandlerError (topic m) (message_id m))
                      (observe (Done t h m o) s)
      end.
Proof. intros Htk. unfold resume. rewrite Htk. simpl. by destruct o. Qed.

(** A dispatch that [stop] does not interrupt, at the time when all
    handlers but the last one have ended: the whole list [hs] that
    [_dispatch] has built was invoked, and the last handler is awaited. *)
Lemma dispatch_all (s : state) (t : task_id) (m : Message)
    (es : list event) (hs : list handler) :
  all_handlers (_subscribers s) m = hs →
  t < length (tasks s) → Stop ∉ es → S (turns t es) = length hs →
  calls_by t (trace (exec (_dispatch t m s).1 es)) =
    calls_by t (trace s) ++ map (λ h, (h, m)) hs
  ∧ ∃ h, last hs = Some h
         ∧ tasks (exec (_dispatch t m s).1 es) !! t =
             Some (mkTask (AwaitHandler m h []) false).
Proof.
  intros Hall Ht Hstop Hn.
  destruct hs as [|h rest]; [done|].
  simpl in Hn. injection Hn as Hn.
  rewrite (_dispatch_cons _ _ _ _ _ Hall). simpl.
  set (s1 := suspend t (AwaitHandler m h rest) (observe (Call t h m) s)).
  assert (tasks s1 !! t = Some (mkTask (AwaitHandler m h rest) false))
    as Htk by (unfold s1; simpl; by rewrite list_lookup_insert_eq).
  destruct (dispatch_progress es s1 t m h rest Htk Hstop)
    as (Hc & h' & Hh' & Hpc); [lia|].
  rewrite Hn in *. rewrite firstn_all in Hc. rewrite drop_all in Hpc.
  split.
  - rewrite Hc. unfold s1. simpl.
    by rewrite calls_by_app, calls_by_call, <- app_assoc.
  - exists h'. split; [|done]. by rewrite last_lookup.
Qed.

(** C1: the dispatch of a message [m] by the task [t], begun in the
    state [s] and not interrupted by [stop], invokes the handlers
    registered for the topic of [m], in subscription order, and then
    those registered for the wildcard, in subscription order, each once
    per registration and with [m]; this whatever is subscribed,
    unsubscribed or published while the handlers run.  When as many
    handlers have ended as come before the last one, all of them have
    been invoked, nothing is left to iterate, and the turn after the
    last handler leaves [_dispatch]. *)
Theorem dispatch_invokes_all (s : state) (t : task_id) (m : Message)
    (es : list event) :
  let hs := get (_subscribers s) (topic m) in
  let ws := get (_subscribers s) "*" in
  let s' := exec (_dispatch t m s).1 es in
  t < length (tasks s) → Stop ∉ es → S (turns t es) = length (hs ++ ws) →
  calls_by t (trace s') =
    calls_by t (trace s) ++ map (λ h, (h, m)) (hs ++ ws)
  ∧ ∃ h, last (hs ++ ws) = Some h
         ∧ tasks s' !! t = Some (mkTask (AwaitHandler m h []) false)
         ∧ ∀ o, resume t o s' =
                while_is_running t
                  match o with
                  | Returned => observe (Done t h m o) s'
                  | Raised => log (HandlerError (topic m) (message_id m))
                                  (observe (Done t h m o) s')
                  end.
Proof.
  intros hs ws s' Ht Hstop Hn.
  destruct (dispatch_all s t m es (hs ++ ws)) as (Hcalls & h & Hlast & Htk);
    [done..|].
  split; [exact Hcalls|].
  exists h. split_and!; [exact Hlast|exact Htk|].
  intros o. by apply resume_last.
Qed.

(** The example, with [audit_handler] subscribed to the topic as well:
    the worker, the auditor and the supervisor are invoked in this
    order, although the supervisor unsubscribes while the worker
    runs. *)
Lemma dispatch_invokes_all_witness :
  let s := subscribe "tasks.start" Scenario.audit_handler
             Scenario.example_bus in
  let es := [Unsubscribe "*" Scenario.supervisor_agent_handler;
             Resume 0 Returned; Publish Scenario.task_finished;
             Resume 0 Raised] in
  calls_by 0 (trace (exec (_dispatch 0 Scenario.task_started s).1 es)) =
    [(Scenario.worker_agent_handler, Scenario.task_started);
     (Scenario.audit_handler, Scenario.task_started);
     (Scenario.supervisor_agent_handler, Scenario.task_started)].
Proof.
  intros s es.
  destruct (dispatch_invokes_all s 0 Scenario.task_started es) as [H _].
  - vm_compute. lia.
  - intros H. repeat (apply elem_of_cons in H as [H|H]; [discriminate|]).
    by apply elem_of_nil in H.
  - reflexivity.
  - exact H.
Defined.

(** C10: a message whose topic is the wildcard string itself is looked
    up twice in the same list: every registration under the wildcard is
    invoked twice, first all of them in order for the exact topic, then
    all of them again for the wildcard. *)
Theorem wildcard_topic_is_dispatched_twice (s : state) (t : task_id)
    (m : Message) (es : list event) :
  let ws := get (_subscribers s) "*" in
  let s' := exec (_dispatch t m s).1 es in
  topic m = "*" →
  t < length (tasks s) → Stop ∉ es → S (turns t es) = 2 * length ws →
  all_handlers (_subscribers s) m = ws ++ ws
  ∧ calls_by t (trace s') =
      calls_by t (trace s) ++ map (λ h, (h, m)) ws ++ map (λ h, (h, m)) ws
  ∧ ∀ h : handler,
      count_occ Nat.eq_dec (all_handlers (_subscribers s) m) h =
      2 * count_occ Nat.eq_dec ws h.
Proof.
  intros ws s' Htopic Ht Hstop Hn.
  assert (all_handlers (_subscribers s) m = ws ++ ws) as Hall
    by (unfold all_handlers; by rewrite Htopic).
  split_and!; [done| |].
  - destruct (dispatch_all s t m es (ws ++ ws) Hall Ht Hstop) as [Hc _].
    + rewrite length_app. lia.
    + fold s' in Hc. by rewrite Hc, map_app.
  - intros h. rewrite Hall, count_occ_app. unfold handler. lia.
Qed.

(** A message published to ["*"] on the bus of the example reaches the
    supervisor twice. *)
Lemma wildcard_topic_is_dispatched_twice_witness :
  calls_by 0 (trace (exec (_dispatch 0 Scenario.broadcast
                             Scenario.example_bus).1 [Resume 0 Raised])) =
    [(Scenario.supervisor_agent_handler, Scenario.broadcast);
     (Scenario.supervisor_agent_handler, Scenario.broadcast)].
Proof.
  destruct (wildcard_topic_is_dispatched_twice Scenario.example_bus 0
              Scenario.broadcast [Resume 0 Raised]) as (_ & H & _).
  - reflexivity.
  - vm_compute. lia.
  - intros H. repeat (apply elem_of_cons in H as [H|H]; [discriminate|]).
    by apply elem_of_nil in H.
  - reflexivity.
  - exact H.
Defined.

(** C3: a message for which neither its topic nor the wildcard has a
    handler.  [_dispatch] invokes nothing, logs the warning with the
    topic and the message id and returns; the loop, which has logged the
    dequeue, tests its condition and goes on with the rest of the queue.
    And [publish] never looks at the registry: it logs and appends. *)
Theorem no_subscribers_is_a_warning (s : state) (t : task_id) (m : Message)
    (q : list Message) :
  get (_subscribers s) (topic m) = [] → get (_subscribers s) "*" = [] →
  let warned := log (NoSubscribers (topic m) (message_id m)) in
  let s1 := log (Dequeued (message_id m) (topic m))
              (observe (Get t m) (set_message_queue q s)) in
  _dispatch t m s = (warned s, false)
  ∧ get_loop t (m :: q) s =
      (if _is_running s then get_loop t q (warned s1)
       else after_loop t (warned s1))
  ∧ trace (warned s1) =
      trace s ++ [Get t m; Log (Dequeued (message_id m) (topic m));
                  Log (NoSubscribers (topic m) (message_id m))]
  ∧ calls (trace (warned s1)) = calls (trace s)
  ∧ publish m s =
      set_message_queue (_message_queue s ++ [m])
        (log (Publishing (message_id m) (topic m)) s).
Proof.
  intros Hexact Hwild warned s1.
  assert (all_handlers (_subscribers s) m = []) as Hall
    by (unfold all_handlers; by rewrite Hexact, Hwild).
  split_and!.
  - unfold _dispatch. by rewrite Hall.
  - simpl. unfold _dispatch. simpl. by rewrite Hall.
  - simpl. by rewrite <- !app_assoc.
  - simpl. by rewrite !calls_app, !app_nil_r.
  - done.
Qed.

(** The test [test_no_subscribers]: nothing is subscribed, and the
    warning names the topic. *)
Lemma no_subscribers_is_a_warning_witness :
  logged (trace (resume 0 Returned
                   (exec __init__ [Run; Publish Scenario.task_finished]))) =
    [Publishing "m2" "tasks.done"; RunnerStarting;
     Dequeued "m2" "tasks.done"; NoSubscribers "tasks.done" "m2"]
  ∧ calls (trace (resume 0 Returned
                    (exec __init__ [Run; Publish Scenario.task_finished])))
    = [].
Proof.
  pose proof (no_subscribers_is_a_warning
                (log RunnerStarting
                   (set_is_running true
                      (exec __init__ [Run; Publish Scenario.task_finished])))
                0 Scenario.task_finished [] eq_refl eq_refl)
    as (_ & Hloop & Htr & Hcalls & _).
  split.
  - change (resume 0 Returned
              (exec __init__ [Run; Publish Scenario.task_finished]))
      with (get_loop 0 [Scenario.task_finished]
              (log RunnerStarting
                 (set_is_running true
                    (exec __init__ [Run; Publish Scenario.task_finished])))).
    rewrite Hloop. reflexivity.
  - reflexivity.
Defined.

End Dispatch.

(** ** Containment of handler errors *)

Module Errors.
Import Msg Bus BusFacts.

Ltac unfold_state :=
  unfold after_loop, suspend, log, observe, set_tasks, set_is_running,
    set_message_queue, set_runner_task, set_subscribers, retrace; simpl.

Lemma retrace_id (s : state) : retrace (trace s) s = s.
Proof. by destruct s. Qed.

Lemma retrace_retrace (tr tr' : list obs) (s : state) :
  retrace tr (retrace tr' s) = retrace tr s.
Proof. done. Qed.

Lemma oblivious_trace (f : state → state) (s : state) (out : list obs) :
  (∀ tr, f (retrace tr s) = retrace (tr ++ out) (f s)) →
  trace (f s) = trace s ++ out.
Proof. intros H. specialize (H (trace s)). rewrite retrace_id in H. by rewrite H. Qed.

Lemma oblivious_compose (f g : state → state) :
  oblivious f → oblivious g → oblivious (λ s, g (f s)).
Proof.
  intros Hf Hg s. destruct (Hf s) as (out1 & H1).
  destruct (Hg (f s)) as (out2 & H2).
  exists (out1 ++ out2). intros tr. by rewrite H1, H2, app_assoc.
Qed.

Lemma oblivious_observe (o : obs) : oblivious (observe o).
Proof. intros s. by exists [o]. Qed.

Lemma oblivious_quiet (f : state → state) :
  (∀ tr s, f (retrace tr s) = retrace tr (f s)) → oblivious f.
Proof. intros H s. exists []. intros tr. by rewrite app_nil_r. Qed.

Lemma oblivious_after_loop (t : task_id) : oblivious (after_loop t).
Proof. intros s. by exists [Log RunnerStopped]. Qed.

Lemma oblivious_get_loop (t : task_id) (q : list Message) :
  oblivious (get_loop t q).
Proof.
  induction q as [|m q IH]; intros s; simpl.
  - exists []. intros tr. by rewrite app_nil_r.
  - unfold _dispatch. simpl.
    destruct (all_handlers (_subscribers s) m) as [|h rest]; simpl.
    + destruct (_is_running s).
      * destruct (IH (log (NoSubscribers (topic m) (message_id m))
                        (log (Dequeued (message_id m) (topic m))
                           (observe (Get t m) (set_message_queue q s)))))
          as (out & H).
        exists ([Get t m; Log (Dequeued (message_id m) (topic m));
                 Log (NoSubscribers (topic m) (message_id m))] ++ out).
        intros tr. rewrite app_assoc, <- H. f_equal.
        unfold_state. by rewrite <- !app_assoc.
      * exists [Get t m; Log (Dequeued (message_id m) (topic m));
                Log (NoSubscribers (topic m) (message_id m));
                Log RunnerStopped].
        intros tr. unfold_state. by rewrite <- !app_assoc.
    + exists [Get t m; Log (Dequeued (message_id m) (topic m)); Call t h m].
      intros tr. unfold_state. by rewrite <- !app_assoc.
Qed.

Lemma oblivious_while_is_running (t : task_id) :
  oblivious (while_is_running t).
Proof.
  intros s. unfold while_is_running. simpl. destruct (_is_running s).
  - apply oblivious_get_loop.
  - apply oblivious_after_loop.
Qed.

Lemma oblivious_resume (t : task_id) (o : outcome) : oblivious (resume t o).
Proof.
  intros s. unfold resume. simpl.
  destruct (tasks s !! t) as [[p c]|]; simpl;
    [|exists []; intros; by rewrite app_nil_r].
  destruct p as [| |m h rest|], c; simpl.
  - exists []. intros tr. by rewrite app_nil_r.
  - apply (oblivious_compose
             (λ s, log RunnerStarting (set_is_running true s))
             (while_is_running t)); [|apply oblivious_while_is_running].
    intros s'. by exists [Log RunnerStarting].
  - apply (oblivious_compose (log CancellationReceived) (after_loop t));
      [apply oblivious_observe|apply oblivious_after_loop].
  - destruct (oblivious_get_loop t (_message_queue s) s) as (out & H).
    by exists out.
  - apply (oblivious_compose (log CancellationReceived) (after_loop t));
      [apply oblivious_observe|apply oblivious_after_loop].
  - unfold handler_done.
    destruct rest as [|h' rest']; simpl.
    + apply (oblivious_compose
               (λ s, match o with
                     | Returned => observe (Done t h m o) s
                     | Raised => log (HandlerError (topic m) (message_id m))
                                     (observe (Done t h m o) s)
                     end)
               (while_is_running t)); [|apply oblivious_while_is_running].
      intros s'. destruct o;
        [by exists [Done t h m Returned]|
         exists [Done t h m Raised;
                 Log (HandlerError (topic m) (message_id m))]];
        intros tr; unfold_state; by rewrite <- ?app_assoc.
    + destruct o;
        [exists [Done t h m Returned; Call t h' m]|
         exists [Done t h m Raised;
                 Log (HandlerError (topic m) (message_id m)); Call t h' m]];
        intros tr; unfold_state; by rewrite <- ?app_assoc.
  - exists []. intros tr. by rewrite app_nil_r.
  - exists []. intros tr. by rewrite app_nil_r.
Qed.

Lemma oblivious_step (e : event) : oblivious (λ s, step s e).
Proof.
  destruct e as [tp h|tp h|m| | |t o]; simpl.
  - intros s. by exists [Log (Registering tp)].
  - intros s. unfold unsubscribe. simpl. case_decide.
    + by exists [Log (Unregistering tp)].
    + exists []. intros tr. by rewrite app_nil_r.
  - intros s. by exists [Log (Publishing (message_id m) (topic m))].
  - intros s. unfold run. simpl. destruct (_ && _).
    + exists []. intros tr. by rewrite app_nil_r.
    + by exists [Log AlreadyRunning].
  - intros s. exists [Log Stopping]. intros tr. unfold stop. simpl.
    destruct (_runner_task s) as [r|]; [|done]. unfold cancel. simpl.
    destruct (tasks s !! r) as [[p c]|]; [|done]. by destruct p.
  - apply oblivious_resume.
Qed.

Lemma without_errors_app (a b : list obs) :
  without_errors (a ++ b) = without_errors a ++ without_errors b.
Proof. apply omap_app. Qed.

Lemma calls_without_errors (tr : list obs) :
  calls (without_errors tr) = calls tr.
Proof.
  induction tr as [|o tr IH]; [done|].
  destruct o as [[]| | |]; simpl; by rewrite ?IH.
Qed.

Lemma dequeued_without_errors (tr : list obs) :
  dequeued (without_errors tr) = dequeued tr.
Proof.
  induction tr as [|o tr IH]; [done|].
  destruct o as [[]| | |]; simpl; by rewrite ?IH.
Qed.

(** What [handler_done] does after it has taken note of the outcome. *)
Lemma handler_done_outcome (t : task_id) (m : Message) (h : handler)
    (rest : list handler) (s : state) :
  ∃ out core, ∀ o,
    handler_done t m h rest o s =
      retrace (trace s ++
               match o with
               | Returned => Done t h m Returned :: out
               | Raised => Done t h m Raised
                           :: Log (HandlerError (topic m) (message_id m))
                           :: out
               end) core.
Proof.
  unfold handler_done. destruct rest as [|h' rest']; simpl.
  - destruct (oblivious_while_is_running t s) as (out & H).
    exists out, (while_is_running t s). intros o.
    destruct o.
    + change (observe (Done t h m Returned) s)
        with (retrace (trace s ++ [Done t h m Returned]) s).
      by rewrite H, <- app_assoc.
    + change (log (HandlerError (topic m) (message_id m))
                (observe (Done t h m Raised) s))
        with (retrace ((trace s ++ [Done t h m Raised]) ++
                       [Log (HandlerError (topic m) (message_id m))]) s).
      by rewrite H, <- !app_assoc.
  - exists [Call t h' m],
      (suspend t (AwaitHandler m h' rest') s).
    intros o. destruct o; unfold_state; by rewrite <- !app_assoc.
Qed.

Lemma resume_outcome (t : task_id) (s : state) :
  ∃ outR outO,
    without_errors outR = without_errors outO ∧
    trace (resume t Returned s) = trace s ++ outO ∧
    resume t Raised s = retrace (trace s ++ outR) (resume t Returned s).
Proof.
  destruct (oblivious_resume t Returned s) as (out & Hout).
  apply oblivious_trace in Hout.
  assert (resume t Raised s = resume t Returned s →
          ∃ outR outO,
            without_errors outR = without_errors outO ∧
            trace (resume t Returned s) = trace s ++ outO ∧
            resume t Raised s = retrace (trace s ++ outR) (resume t Returned s))
    as Hsame.
  { intros ->. exists out, out. split_and!; [done|done|].
    by rewrite <- Hout, retrace_id. }
  unfold resume in *. destruct (tasks s !! t) as [[p c]|]; [|by apply Hsame].
  destruct p as [| |m h rest|], c; simpl in *; try by apply Hsame.
  destruct (handler_done_outcome t m h rest s) as (out' & core & H).
  exists (Done t h m Raised :: Log (HandlerError (topic m) (message_id m))
          :: out'), (Done t h m Returned :: out').
  split_and!; [done|by rewrite H|by rewrite !H].
Qed.

(** Executions that differ only in the outcomes of the handlers reach
    states that differ only in the trace, and the traces only in the
    marks of the errors. *)
Lemma exec_calm (es : list event) (s1 s2 : state) :
  s1 = retrace (trace s1) s2 →
  without_errors (trace s1) = without_errors (trace s2) →
  exec s1 es = retrace (trace (exec s1 es)) (exec s2 (calm es)) ∧
  without_errors (trace (exec s1 es)) =
    without_errors (trace (exec s2 (calm es))).
Proof.
  revert s1 s2. induction es as [|e es IH]; intros s1 s2 Hs Htr; [done|].
  simpl calm. rewrite !exec_cons. apply IH.
  - destruct (oblivious_step e s2) as (out & H). rewrite Hs, H.
    assert (∀ t, e = Resume t Raised →
                 retrace (trace s1 ++ out) (step s2 e) =
                 retrace (trace s1 ++ out) (resume t Returned s2)) as Hr.
    { intros t ->. simpl.
      destruct (resume_outcome t s2) as (outR & outO & _ & _ & ->). done. }
    destruct e as [| | | | |t []]; try done. by apply Hr.
  - destruct (oblivious_step e s2) as (out & H0). rewrite Hs, H0. simpl.
    pose proof (oblivious_trace (λ s, step s e) s2 out H0) as H.
    simpl in H. rewrite without_errors_app, Htr.
    destruct e as [| | | | |t []];
      try (by rewrite H, without_errors_app).
    simpl in *. destruct (resume_outcome t s2) as (outR & outO & Heq & HO & HR).
    rewrite HO, without_errors_app. f_equal.
    rewrite HR in H. simpl in H. apply app_inv_head in H. by rewrite <- H.
Qed.

End Errors.

(** ** Unsubscribing *)

Module Registry.
Import Msg Bus BusFacts.

Lemma cancel_pc (t t' : task_id) (s : state) (tk : task) :
  tasks (cancel t s) !! t' = Some tk →
  ∃ tk', tasks s !! t' = Some tk' ∧ at_pc tk' = at_pc tk.
Proof.
  unfold cancel. destruct (tasks s !! t) as [[p c]|] eqn:Ht; [|by eauto].
  assert (t < length (tasks s)) by by eapply lookup_lt_Some.
  destruct p; simpl; eauto;
    (destruct (decide (t' = t)) as [->|Hne];
     [rewrite list_lookup_insert_eq by done; intros [= <-]; eauto
     |rewrite list_lookup_insert_ne by done; eauto]).
Qed.

Lemma unreachable_quiet (h : handler) (m : Message) (tr0 : list obs)
    (s s' : state) (out : list obs) :
  _subscribers s' = _subscribers s → tasks s' = tasks s →
  trace s' = trace s ++ out → (∀ x, x ∈ out → actor x = None) →
  unreachable h m tr0 s → unreachable h m tr0 s'.
Proof.
  intros Hs Ht Htr Hout (H1 & H2 & out0 & H3 & H4).
  split_and!.
  - by rewrite Hs.
  - by rewrite Ht.
  - exists (out0 ++ out). split; [by rewrite Htr, H3, app_assoc|].
    intros t [?|Hin]%elem_of_app; [by eapply H4|].
    by specialize (Hout _ Hin).
Qed.

Lemma unreachable_step (h : handler) (m : Message) (tr0 : list obs)
    (s : state) (e : event) :
  e ≠ Subscribe (topic m) h → e ≠ Subscribe "*" h →
  unreachable h m tr0 s → unreachable h m tr0 (step s e).
Proof.
  intros He1 He2 Hun.
  destruct e as [tp h2|tp h2|m2| | |t o]; simpl.
  - destruct Hun as (H1 & H2 & out0 & H3 & H4). split_and!; simpl.
    + unfold all_handlers in *. rewrite !get_insert.
      rewrite !elem_of_app in *.
      intros [Hin|Hin]; case_decide as Hk; subst;
        try (apply elem_of_app in Hin as [Hin|Hin%list_elem_of_singleton]);
        subst; tauto.
    + done.
    + exists (out0 ++ [Log (Registering tp)]).
      split; [by rewrite H3, app_assoc|].
      intros t [?|Hin]%elem_of_app; [by eapply H4|]. turn_elems.
  - unfold unsubscribe. case_decide; [|done].
    destruct Hun as (H1 & H2 & out0 & H3 & H4). split_and!; simpl.
    + unfold all_handlers in *. rewrite !get_insert.
      rewrite !elem_of_app in *.
      intros [Hin|Hin]; case_decide as Hk; subst;
        try apply elem_of_remove in Hin; tauto.
    + done.
    + exists (out0 ++ [Log (Unregistering tp)]).
      split; [by rewrite H3, app_assoc|].
      intros t [?|Hin]%elem_of_app; [by eapply H4|]. turn_elems.
  - apply (unreachable_quiet h m tr0 s _
             [Log (Publishing (message_id m2) (topic m2))]); try done.
    intros; turn_elems; done.
  - unfold run. destruct (_ && _); simpl.
    + destruct Hun as (H1 & H2 & H3). split_and!; try done. simpl.
      intros t tk h' rest Htk Hpc.
      destruct (decide (t < length (tasks s))).
      * rewrite lookup_app_l in Htk by done. eauto.
      * rewrite lookup_app_r in Htk by lia.
        apply list_lookup_singleton_Some in Htk as [_ <-]. done.
    + apply (unreachable_quiet h m tr0 s _ [Log AlreadyRunning]); try done.
      intros; turn_elems; done.
  - destruct Hun as (H1 & H2 & out0 & H3 & H4). split_and!.
    + unfold stop. simpl. destruct (_runner_task s) as [r|]; [|done]. simpl.
      by rewrite (proj1 (cancel_frame _ _)).
    + intros t tk h' rest Htk Hpc. unfold stop in Htk. simpl in Htk.
      destruct (_runner_task s) as [r|]; simpl in Htk; [|by eauto].
      apply cancel_pc in Htk as (tk' & Htk' & Heq). simpl in Htk'.
      rewrite <- Heq in Hpc. eauto.
    + exists (out0 ++ [Log Stopping]).
      split; [by rewrite trace_stop, H3, app_assoc|].
      intros t [?|Hin]%elem_of_app; [by eapply H4|]. turn_elems.
  - destruct (resume_cases t o s)
      as [->|(tk & p & out & Htk & Hpc & [] & _)]; [done|].
    destruct Hun as (H1 & H2 & out0 & H3 & H4).
    assert (t < length (tasks s)) as Hlt by by eapply lookup_lt_Some.
    assert (¬ allowed (resumed_frame tk) (_subscribers s) h m) as Hno.
    { intros [Hin|(hs & Hf & Hin)]; [done|].
      unfold resumed_frame in Hf.
      destruct tk as [[| |m' h' rest|] []]; simpl in Hf; try done.
      injection Hf as -> <-. by eapply H2. }
    split_and!.
    + by rewrite turn_subscribers0.
    + intros t' tk' h' rest. rewrite turn_tasks0.
      destruct (decide (t' = t)) as [->|Hne].
      * rewrite list_lookup_insert_eq by done. intros [= <-]. simpl.
        intros -> Hin. apply Hno.
        apply (turn_frame0 m (h' :: rest)); [done|by right].
      * rewrite list_lookup_insert_ne by done. apply H2.
    + exists (out0 ++ out). split; [by rewrite turn_trace0, H3, app_assoc|].
      intros t' [?|Hin]%elem_of_app; [by eapply H4|]. eauto.
Qed.

Lemma unreachable_exec (h : handler) (m : Message) (tr0 : list obs)
    (es : list event) (s : state) :
  Subscribe (topic m) h ∉ es → Subscribe "*" h ∉ es →
  unreachable h m tr0 s → unreachable h m tr0 (exec s es).
Proof.
  revert s. induction es as [|e es IH]; intros s H1 H2 Hun; [done|].
  rewrite exec_cons. apply IH.
  - intros ?; apply H1; by right.
  - intros ?; apply H2; by right.
  - apply unreachable_step; [| |done].
    + intros ->. apply H1. by left.
    + intros ->. apply H2. by left.
Qed.

(** C4, as stated, fails: [unsubscribe] removes one registration, so a
    handler registered twice for a topic is still invoked, once, with a
    message published to the topic after [unsubscribe] has returned. *)
Lemma unsubscribe_removes_one_registration :
  let w := Scenario.worker_agent_handler in
  let s := exec __init__ [Subscribe "tasks.start" w; Subscribe "tasks.start" w;
                          Unsubscribe "tasks.start" w] in
  get (_subscribers s) "tasks.start" = [w]
  ∧ calls (trace (exec s [Run; Publish Scenario.task_started;
                          Resume 0 Returned])) =
      [(w, Scenario.task_started)].
Proof. split; reflexivity. Qed.

Lemma remove_first (x : handler) (l1 l2 : list handler) :
  x ∉ l1 → remove x (l1 ++ x :: l2) = l1 ++ l2.
Proof.
  induction l1 as [|y l1 IH]; simpl.
  - intros _. by destruct (decide (x = x)).
  - intros [Hne Hx]%not_elem_of_cons.
    destruct (decide (y = x)); [by subst|]. by rewrite IH.
Qed.

(** After a handler that has at most one registration under [T], and
    none that would reach [m] otherwise, is unsubscribed from [T], it is
    out of reach for [m]. *)
Lemma unreachable_unsubscribe (s : state) (T : string) (h : handler)
    (m : Message) :
  count_occ Nat.eq_dec (get (_subscribers s) T) h ≤ 1 →
  (topic m ≠ T → h ∉ get (_subscribers s) (topic m)) →
  (T ≠ "*" → h ∉ get (_subscribers s) "*") →
  (∀ t tk h' rest, tasks s !! t = Some tk →
                   at_pc tk = AwaitHandler m h' rest → h ∉ rest) →
  unreachable h m (trace s) (unsubscribe T h s).
Proof.
  intros Hcount Htopic Hwild Hflight.
  assert (∀ k, (k ≠ T → h ∉ get (_subscribers s) k) →
               h ∉ get (_subscribers (unsubscribe T h s)) k) as Hget.
  { intros k Hk. unfold unsubscribe. case_decide as Hin; simpl.
    - rewrite get_insert. case_decide as HT; [|by apply Hk].
      by apply remove_once.
    - destruct (decide (k = T)) as [->|]; [done|by apply Hk]. }
  split_and!.
  - unfold all_handlers. rewrite elem_of_app. intros [Hin|Hin].
    + by apply (Hget (topic m)) in Hin.
    + apply (Hget "*") in Hin; [done|]. intros ?. by apply Hwild.
  - unfold unsubscribe. by case_decide.
  - destruct (trace_unsubscribe T h s) as (out0 & -> & Hout).
    exists out0. split; [done|]. intros t Hin. by specialize (Hout _ Hin).
Qed.

(** C4 (amended): [unsubscribe(T, h)] removes the first registration of
    [h] under [T], and that one only: the handlers before it and after
    it stay as they are, also the later registrations of [h]; a handler
    that is not registered under [T] leaves the bus unchanged, and the
    other topics are never touched.  When [h] was registered at most
    once under [T] and is not a wildcard subscriber, then after
    [unsubscribe] returns no dispatch that begins later invokes [h] with
    a message of topic [T], nor with a message of another topic under
    which [h] is not registered, until [h] is subscribed again; only the
    dispatches already under way, which iterate their own list, may
    still reach [h].  Here [out] is what happens after the state [s] in
    which [unsubscribe] is called. *)
Theorem unsubscribed_handler_is_not_invoked (s : state) (T : string)
    (h : handler) :
  (∀ l1 l2, get (_subscribers s) T = l1 ++ h :: l2 → h ∉ l1 →
            get (_subscribers (unsubscribe T h s)) T = l1 ++ l2)
  ∧ (h ∉ get (_subscribers s) T → unsubscribe T h s = s)
  ∧ (∀ k, k ≠ T →
          get (_subscribers (unsubscribe T h s)) k = get (_subscribers s) k)
  ∧ (∀ (m : Message) (es : list event) (out : list obs),
       count_occ Nat.eq_dec (get (_subscribers s) T) h ≤ 1 →
       (topic m ≠ T → h ∉ get (_subscribers s) (topic m)) →
       (T ≠ "*" → h ∉ get (_subscribers s) "*") →
       (∀ t tk h' rest, tasks s !! t = Some tk →
                        at_pc tk = AwaitHandler m h' rest → h ∉ rest) →
       Subscribe (topic m) h ∉ es → Subscribe "*" h ∉ es →
       trace (exec (unsubscribe T h s) es) = trace s ++ out →
       ∀ t, Call t h m ∉ out).
Proof.
  split_and!.
  - intros l1 l2 Hl Hl1. unfold unsubscribe. rewrite Hl.
    rewrite decide_True by (apply elem_of_app; right; by left). simpl.
    rewrite get_insert. destruct (decide (T = T)); [|done].
    rewrite Hl. by apply remove_first.
  - intros Hout. unfold unsubscribe. by rewrite decide_False.
  - intros k Hne. unfold unsubscribe. case_decide; [|done]. simpl.
    rewrite get_insert. by destruct (decide (T = k)).
  - intros m es out Hcount Htopic Hwild Hflight Hes1 Hes2 Htr.
    pose proof (unreachable_unsubscribe s T h m Hcount Htopic Hwild Hflight)
      as Hun.
    apply (unreachable_exec h m (trace s) es) in Hun
      as (_ & _ & out' & Heq & Hno); [|done..].
    rewrite Htr in Heq. by apply app_inv_head in Heq as ->.
Qed.

(** The test [test_unsubscribe], on the bus of the example: the worker,
    registered once, is unsubscribed; the message published afterwards
    reaches the supervisor only. *)
Lemma unsubscribed_handler_is_not_invoked_witness :
  let es := [Publish Scenario.task_started; Resume 0 Returned;
             Resume 0 Returned] in
  Call 0 Scenario.worker_agent_handler Scenario.task_started
  ∉ drop (length (trace Scenario.example_bus))
         (trace (exec (unsubscribe "tasks.start"
                         Scenario.worker_agent_handler
                         Scenario.example_bus) es)).
Proof.
  intros es.
  apply (proj2 (proj2 (proj2
           (unsubscribed_handler_is_not_invoked Scenario.example_bus
              "tasks.start" Scenario.worker_agent_handler)))
           Scenario.task_started es).
  - vm_compute. lia.
  - intros H. by destruct H.
  - intros _ H. vm_compute in H.
    apply elem_of_cons in H as [H|H]; [discriminate|by apply elem_of_nil in H].
  - intros [|t] tk h' rest H; vm_compute in H; [|discriminate].
    injection H as <-. discriminate.
  - intros H. repeat (apply elem_of_cons in H as [H|H]; [discriminate|]).
    by apply elem_of_nil in H.
  - intros H. repeat (apply elem_of_cons in H as [H|H]; [discriminate|]).
    by apply elem_of_nil in H.
  - reflexivity.
Defined.

End Registry.

(** ** Cancellation *)

Module Lifecycle.
Import Msg Bus BusFacts.

(** A task whose cancellation is pending stays as it is, and invokes
    nothing, until the event loop gives it its turn. *)
Lemma step_pending (t : task_id) (p : pc) (s : state) (e : event) :
  is_turn t e = false → tasks s !! t = Some (mkTask p true) →
  tasks (step s e) !! t = Some (mkTask p true) ∧
  calls_by t (trace (step s e)) = calls_by t (trace s).
Proof.
  intros Hturn Htk.
  assert (e = Stop ∨ e ≠ Stop) as [->|He] by (destruct e; auto);
    [|by apply Dispatch.step_other].
  simpl. split.
  - unfold stop. simpl. destruct (_runner_task s) as [r|]; [|done]. simpl.
    unfold cancel. simpl.
    destruct (decide (r = t)) as [->|Hne].
    + rewrite Htk. simpl.
      assert (t < length (tasks s)) by by eapply lookup_lt_Some.
      destruct p; simpl; by rewrite ?list_lookup_insert_eq.
    + destruct (tasks s !! r) as [[p' c']|]; [|done].
      destruct p'; simpl; by rewrite ?list_lookup_insert_ne.
  - by rewrite trace_stop, calls_by_app, app_nil_r.
Qed.

Lemma exec_pending (t : task_id) (p : pc) (es : list event) (s : state) :
  turns t es = 0 → tasks s !! t = Some (mkTask p true) →
  tasks (exec s es) !! t = Some (mkTask p true) ∧
  calls_by t (trace (exec s es)) = calls_by t (trace s).
Proof.
  revert s. induction es as [|e es IH]; intros s Hn Htk; [done|].
  unfold turns in Hn. rewrite filter_cons in Hn.
  destruct (is_turn t e) eqn:Hturn; [done|].
  destruct (step_pending t p s e Hturn Htk) as [Htk' Hc].
  rewrite exec_cons. destruct (IH _ Hn Htk') as [-> ->]. done.
Qed.

(** [stop] marks the task that [_runner_task] refers to, unless it has
    ended. *)
Lemma stop_pending (t : task_id) (tk : task) (s : state) :
  _runner_task s = Some t → tasks s !! t = Some tk →
  at_pc tk ≠ Finished →
  tasks (stop s) !! t = Some (mkTask (at_pc tk) true).
Proof.
  intros Hr Htk Hpc. unfold stop. simpl. rewrite Hr. simpl.
  unfold cancel. simpl. rewrite Htk.
  assert (t < length (tasks s)) by by eapply lookup_lt_Some.
  destruct (at_pc tk); simpl; by rewrite ?list_lookup_insert_eq.
Qed.

(** C8, as stated, fails.  On the bus of the example the worker is
    awaited (it sleeps) when [stop] is called: at its next turn the loop
    ends, the invocation of the worker never completes, and the
    supervisor, which comes after it, is not invoked. *)
Lemma stop_interrupts_the_handler :
  let w := Scenario.worker_agent_handler in
  let m := Scenario.task_started in
  let s := exec Scenario.example_bus [Publish m; Resume 0 Returned] in
  tasks s !! 0 =
    Some (mkTask (AwaitHandler m w [Scenario.supervisor_agent_handler]) false)
  ∧ ∀ o, tasks (resume 0 o (stop s)) !! 0 = Some (mkTask Finished false)
         ∧ calls (trace (resume 0 o (stop s))) = [(w, m)]
         ∧ ∀ r, Done 0 w m r ∉ trace (resume 0 o (stop s)).
Proof.
  intros w m s. split; [reflexivity|].
  intros o. split_and!; [by destruct o|by destruct o|].
  intros r H.
  assert (trace (resume 0 o (stop s)) = trace (resume 0 Returned (stop s)))
    as Heq by by destruct o.
  rewrite Heq in H. vm_compute in H.
  repeat (apply elem_of_cons in H as [H|H]; [discriminate|]).
  by apply elem_of_nil in H.
Qed.

(** C8 (amended): the cancellation requested by [stop] is delivered at
    the await on which the loop is suspended, be it the wait for the next
    message or, in the middle of a dispatch, the handler invocation in
    progress.  Whatever is called on the bus in between, in its next
    turn the task gets the [CancelledError] there: it logs the request,
    clears [_is_running] and ends, without waiting for the outcome [o] of
    the handler, invoking another handler or dequeuing a message. *)
Theorem cancellation_is_delivered_at_the_await (s : state) (t : task_id)
    (tk : task) (es : list event) (o : outcome) :
  _runner_task s = Some t → tasks s !! t = Some tk →
  at_pc tk ≠ Created → at_pc tk ≠ Finished → turns t es = 0 →
  let s1 := exec (stop s) es in
  resume t o s1 = cancelled t s1
  ∧ trace (resume t o s1) =
      trace s1 ++ [Log CancellationReceived; Log RunnerStopped]
  ∧ tasks (resume t o s1) !! t = Some (mkTask Finished false)
  ∧ _is_running (resume t o s1) = false
  ∧ _message_queue (resume t o s1) = _message_queue s1
  ∧ calls_by t (trace (resume t o s1)) = calls_by t (trace s).
Proof.
  intros Hr Htk Hc Hf Hn s1.
  pose proof (stop_pending t tk s Hr Htk Hf) as Hstop.
  destruct (exec_pending t (at_pc tk) es (stop s) Hn Hstop) as [Htk1 Hcalls].
  fold s1 in Htk1, Hcalls.
  assert (resume t o s1 = cancelled t s1) as Heq.
  { unfold resume. rewrite Htk1. simpl. by destruct (at_pc tk). }
  assert (t < length (tasks s1)) by by eapply lookup_lt_Some.
  rewrite Heq. split_and!; try done.
  - simpl. by rewrite <- app_assoc.
  - simpl. by rewrite list_lookup_insert_eq.
  - simpl. rewrite <- app_assoc, calls_by_app, app_nil_r, Hcalls.
    by rewrite trace_stop, calls_by_app, app_nil_r.
Qed.

(** The scenario of the counterexample, with a message published and a
    second [run] between [stop] and the turn of the task. *)
Lemma cancellation_is_delivered_at_the_await_witness :
  let s := exec Scenario.example_bus
             [Publish Scenario.task_started; Resume 0 Returned] in
  let s1 := exec (stop s) [Publish Scenario.task_finished; Run] in
  logged (trace (resume 0 Returned s1)) =
    logged (trace s1) ++ [CancellationReceived; RunnerStopped]
  ∧ calls_by 0 (trace (resume 0 Returned s1)) =
      [(Scenario.worker_agent_handler, Scenario.task_started)].
Proof.
  intros s s1.
  destruct (cancellation_is_delivered_at_the_await s 0
              (mkTask (AwaitHandler Scenario.task_started
                         Scenario.worker_agent_handler
                         [Scenario.supervisor_agent_handler]) false)
              [Publish Scenario.task_finished; Run] Returned)
    as (_ & Htr & _ & _ & _ & Hcalls);
    [reflexivity|reflexivity|discriminate|discriminate|reflexivity|].
  fold s1 in Htr, Hcalls. split.
  - by rewrite Htr, logged_app.
  - rewrite Hcalls. reflexivity.
Defined.

End Lifecycle.

(** ** More on the registry *)

Module RegistryMore.
Import Msg Bus BusFacts Views.

Lemma remove_app_new (x : handler) (l : list handler) :
  x ∉ l → remove x (l ++ [x]) = l.
Proof.
  induction l as [|y l IH]; intros Hx; simpl.
  - by rewrite decide_True.
  - apply not_elem_of_cons in Hx as [Hne Hx].
    rewrite decide_False by done. by rewrite IH.
Qed.

Lemma remove_app_old (x : handler) (l l' : list handler) :
  x ∈ l → remove x (l ++ l') = remove x l ++ l'.
Proof.
  induction l as [|y l IH]; intros Hx; simpl.
  - by apply elem_of_nil in Hx.
  - destruct (decide (y = x)) as [->|Hne]; [done|].
    apply elem_of_cons in Hx as [->|Hx]; [done|]. by rewrite IH.
Qed.

Lemma remove_filter (x : handler) (l : list handler) :
  filter (λ y, y ≠ x) (remove x l) = filter (λ y, y ≠ x) l.
Proof.
  induction l as [|y l IH]; [done|]. simpl.
  destruct (decide (y = x)) as [->|Hne].
  - by rewrite filter_cons_False by (intros H; by apply H).
  - by rewrite !filter_cons_True, IH by done.
Qed.

Lemma remove_absent (x : handler) (l : list handler) :
  x ∉ l → remove x l = l.
Proof.
  induction l as [|y l IH]; [done|]. intros [Hne Hx]%not_elem_of_cons.
  simpl. rewrite decide_False by done. by rewrite IH.
Qed.

Lemma get_subscribe (T k : string) (h : handler) (s : state) :
  get (_subscribers (subscribe T h s)) k =
  if decide (T = k) then get (_subscribers s) T ++ [h]
  else get (_subscribers s) k.
Proof. unfold subscribe. simpl. apply get_insert. Qed.

Lemma get_unsubscribe (T k : string) (h : handler) (s : state) :
  get (_subscribers (unsubscribe T h s)) k =
  if decide (T = k) then remove h (get (_subscribers s) T)
  else get (_subscribers s) k.
Proof.
  unfold unsubscribe. case_decide as Hin; simpl.
  - apply get_insert.
  - case_decide as Hk; [|done]. subst. by rewrite remove_absent.
Qed.

(** X1: the handlers of a topic are kept in subscription order, with
    their repetitions: subscribing [hs] one after the other to [T]
    appends [hs] to the list of [T] and leaves every other topic as it
    is. *)
Theorem subscribe_appends_in_order (T : string) (hs : list handler)
    (s : state) (k : string) :
  get (_subscribers (exec s (map (Subscribe T) hs))) k =
  if decide (T = k) then get (_subscribers s) T ++ hs
  else get (_subscribers s) k.
Proof.
  revert s. induction hs as [|h hs IH]; intros s; simpl.
  - case_decide; [subst; by rewrite app_nil_r|done].
  - change (foldl step (subscribe T h s) (map (Subscribe T) hs))
      with (exec (subscribe T h s) (map (Subscribe T) hs)).
    rewrite IH, !get_subscribe.
    destruct (decide (T = k)) as [->|Hne].
    + destruct (decide (k = k)); [by rewrite <- app_assoc|done].
    + done.
Qed.

(** X2: subscribing a handler and unsubscribing it again.  When the
    handler was not registered for the topic, every lookup is as before
    (only the topic may have become a key with an empty list).  When it
    was, [list.remove] takes its first registration and the new one stays
    at the end, so the handler moves behind the others. *)
Theorem subscribe_then_unsubscribe (T k : string) (h : handler) (s : state) :
  get (_subscribers (unsubscribe T h (subscribe T h s))) k =
  if decide (T = k ∧ h ∈ get (_subscribers s) T)
  then remove h (get (_subscribers s) T) ++ [h]
  else get (_subscribers s) k.
Proof.
  rewrite get_unsubscribe, !get_subscribe.
  destruct (decide (T = T)) as [_|?]; [|done].
  destruct (decide (T = k)) as [->|Hne].
  - destruct (decide (h ∈ get (_subscribers s) k)) as [Hin|Hout].
    + destruct (decide (k = k ∧ _)); [|tauto]. by apply remove_app_old.
    + destruct (decide (k = k ∧ _)); [tauto|]. by apply remove_app_new.
  - destruct (decide (T = k ∧ _)); [tauto|done].
Qed.

(** X3: [unsubscribe] touches one registration of one handler: under
    the topic the other handlers keep their registrations and their
    order, the handler loses one registration if it has any, and the
    lists of the other topics are as before. *)
Theorem unsubscribe_spares_the_others (T : string) (h : handler)
    (s : state) :
  let l := get (_subscribers s) T in
  let l' := get (_subscribers (unsubscribe T h s)) T in
  filter (λ y, y ≠ h) l' = filter (λ y, y ≠ h) l
  ∧ registrations h l' = Nat.pred (registrations h l)
  ∧ (∀ h', h' ≠ h → registrations h' l' = registrations h' l)
  ∧ (∀ k, k ≠ T →
          get (_subscribers (unsubscribe T h s)) k = get (_subscribers s) k).
Proof.
  intros l l'. unfold l', l. rewrite get_unsubscribe.
  destruct (decide (T = T)) as [_|?]; [|done].
  split_and!.
  - apply remove_filter.
  - unfold registrations. rewrite count_remove.
    by destruct (decide (h = h)).
  - intros h' Hne. unfold registrations. rewrite count_remove.
    by destruct (decide (h' = h)).
  - intros k Hne. rewrite get_unsubscribe.
    destruct (decide (T = k)); [by subst|done].
Qed.

Lemma subscribers_resume (t : task_id) (o : outcome) (s : state) :
  _subscribers (resume t o s) = _subscribers s.
Proof.
  destruct (resume_cases t o s) as [->|(tk & p & out & _ & _ & [] & _)]; done.
Qed.

Lemma subscribers_step (s : state) (e : event) :
  is_registry_call e = false → _subscribers (step s e) = _subscribers s.
Proof.
  destruct e as [| |m| | |t o]; simpl; try done; intros _.
  - unfold run. by destruct (_ && _).
  - unfold stop. simpl. destruct (_runner_task s); [|done]. simpl.
    by rewrite (proj1 (cancel_frame _ _)).
  - apply subscribers_resume.
Qed.

Lemma subscribers_registry_call (s1 s2 : state) (e : event) :
  is_registry_call e = true → _subscribers s1 = _subscribers s2 →
  _subscribers (step s1 e) = _subscribers (step s2 e).
Proof.
  destruct e as [T h|T h| | | |]; simpl; try done; intros _ Heq.
  - by rewrite Heq.
  - unfold unsubscribe. rewrite Heq. by case_decide; simpl; rewrite ?Heq.
Qed.

(** X4: the registry is changed by [subscribe] and [unsubscribe] alone.
    Whatever is published, started, stopped or dispatched in between,
    the registry after an execution is the one that its subscribe and
    unsubscribe calls build in their order. *)
Theorem registry_follows_its_calls (es : list event) (s : state) :
  _subscribers (exec s es) =
  _subscribers (exec s (filter (λ e, is_registry_call e) es)).
Proof.
  assert (∀ s1 s2, _subscribers s1 = _subscribers s2 →
            _subscribers (exec s1 es) =
            _subscribers (exec s2 (filter (λ e, is_registry_call e) es)))
    as H; [|by apply H].
  induction es as [|e es IH]; intros s1 s2 Heq; [done|].
  rewrite exec_cons, filter_cons.
  destruct (is_registry_call e) eqn:He; simpl.
  - apply IH. by apply subscribers_registry_call.
  - apply IH. by rewrite subscribers_step.
Qed.

End RegistryMore.

(** ** More on delivery and on the lifecycle *)

Module DeliveryMore.
Import Msg Bus BusFacts Views.

(** X5: a handler is invoked with a message only if it has been
    subscribed to the topic of the message or to the wildcard: without
    such a call in the execution, no task ever invokes it with that
    message. *)
Theorem only_subscribers_are_invoked (es : list event) (h : handler)
    (m : Message) :
  Subscribe (topic m) h ∉ es → Subscribe "*" h ∉ es →
  ∀ t, Call t h m ∉ trace (exec __init__ es).
Proof.
  intros H1 H2.
  assert (unreachable h m [] __init__) as Hun.
  { split_and!.
    - unfold all_handlers. simpl. rewrite !get_empty. by intros ?%elem_of_nil.
    - intros t tk h' rest Htk. simpl in Htk. by rewrite lookup_nil in Htk.
    - exists []. split; [done|]. by intros t ?%elem_of_nil. }
  apply (Registry.unreachable_exec h m [] es) in Hun
    as (_ & _ & out & -> & Hout); done.
Qed.

(** The test [test_dispatch_to_correct_subscriber]: the handler of topic
    B is not invoked with the message of topic A. *)
Lemma only_subscribers_are_invoked_witness :
  Call 0 Scenario.audit_handler Scenario.task_started
  ∉ trace (exec __init__
             [Subscribe "tasks.start" Scenario.worker_agent_handler;
              Subscribe "tasks.done" Scenario.audit_handler; Run;
              Publish Scenario.task_started; Resume 0 Returned;
              Resume 0 Returned]).
Proof.
  apply only_subscribers_are_invoked.
  - intros H. repeat (apply elem_of_cons in H as [H|H]; [discriminate|]).
    by apply elem_of_nil in H.
  - intros H. repeat (apply elem_of_cons in H as [H|H]; [discriminate|]).
    by apply elem_of_nil in H.
Defined.

Lemma calls_silent (out : list obs) :
  (∀ x, x ∈ out → actor x = None) → calls out = [].
Proof.
  induction out as [|x out IH]; intros H; [done|].
  assert (actor x = None) by (apply H; left).
  destruct x; try discriminate. apply IH. intros; apply H. by right.
Qed.

Lemma runner_task_stop (s : state) :
  _runner_task (stop s) = None ∧ _is_running (stop s) = false
  ∧ _message_queue (stop s) = _message_queue s.
Proof.
  unfold stop. simpl. destruct (_runner_task s) as [r|] eqn:Hr; simpl;
    [|done].
  destruct (cancel_frame r (set_is_running false (log Stopping s)))
    as (_ & -> & -> & _). done.
Qed.

Lemma idle_stop (s : state) : idle s → idle (stop s).
Proof.
  intros Hidle t tk. unfold stop. simpl.
  destruct (_runner_task s) as [r|]; simpl; [|apply Hidle].
  intros [[_ ?]|[_ Htk]]%cancel_lookup; [done|]. by eapply Hidle.
Qed.

(** While the bus is idle and [run] is not called, nothing is dequeued
    and no handler is invoked; what is published waits in the queue. *)
Lemma idle_step (s : state) (e : event) :
  idle s → e ≠ Run →
  idle (step s e)
  ∧ calls (trace (step s e)) = calls (trace s)
  ∧ dequeued (trace (step s e)) = dequeued (trace s)
  ∧ _message_queue (step s e) = _message_queue s ++ published [e].
Proof.
  intros Hidle Hrun.
  destruct e as [T h|T h|m| | |t o]; simpl; try done.
  - by rewrite calls_app, dequeued_app, !app_nil_r.
  - unfold unsubscribe. case_decide; simpl;
      by rewrite ?calls_app, ?dequeued_app, !app_nil_r.
  - by rewrite calls_app, dequeued_app, !app_nil_r.
  - destruct (runner_task_stop s) as (_ & _ & ->).
    rewrite trace_stop, calls_app, dequeued_app, !app_nil_r.
    split_and!; try done. by apply idle_stop.
  - rewrite app_nil_r.
    destruct (resume_cases t o s)
      as [->|(tk & p & out & Htk & _ & [] & Hdead)]; [done|].
    destruct (Hdead (Hidle _ _ Htk)) as [-> Hsilent].
    rewrite turn_trace0, calls_app, dequeued_app in *.
    rewrite (silent_dequeued out Hsilent) in *.
    rewrite (calls_silent out Hsilent), !app_nil_r. simpl in *.
    split_and!; try done.
    intros t' tk'. rewrite turn_tasks0.
    destruct (decide (t' = t)) as [->|Hne].
    + rewrite list_lookup_insert_eq by by eapply lookup_lt_Some.
      by intros [= <-].
    + rewrite list_lookup_insert_ne by done. apply Hidle.
Qed.

Lemma idle_exec (es : list event) (s : state) :
  idle s → Run ∉ es →
  calls (trace (exec s es)) = calls (trace s)
  ∧ dequeued (trace (exec s es)) = dequeued (trace s)
  ∧ _message_queue (exec s es) = _message_queue s ++ published es.
Proof.
  revert s. induction es as [|e es IH]; intros s Hidle Hrun.
  - simpl. by rewrite app_nil_r.
  - assert (e ≠ Run ∧ Run ∉ es) as [He Hes].
    { split; [intros ->; apply Hrun; by left|].
      intros ?; apply Hrun; by right. }
    destruct (idle_step s e Hidle He) as (Hi & Hc & Hd & Hq).
    rewrite exec_cons. destruct (IH _ Hi Hes) as (-> & -> & ->).
    rewrite Hc, Hd, Hq. split_and!; try done.
    change (e :: es) with ([e] ++ es).
    by rewrite published_app, app_assoc.
Qed.

(** X6: a [stop] that is called between the turns of the loop, that is
    by another task than the loop itself (a handler that calls [stop] on
    the loop that is running it is outside these executions).  After it,
    and until [run] is called again, no message is dequeued and no
    handler is invoked, whatever turns the tasks get; the messages
    published meanwhile are not dropped: they are appended to the queue,
    behind those that were waiting when [stop] was called. *)
Theorem nothing_is_delivered_after_stop (es es' : list event) :
  Run ∉ es' →
  let s := stop (exec __init__ es) in
  calls (trace (exec s es')) = calls (trace s)
  ∧ dequeued (trace (exec s es')) = dequeued (trace s)
  ∧ _message_queue (exec s es') =
      _message_queue (exec __init__ es) ++ published es'.
Proof.
  intros Hrun s.
  assert (idle s) as Hidle.
  { destruct (invariant_stop _ (invariant_exec es)) as (Hone & _).
    intros t tk Htk. destruct (live tk) eqn:Hl; [|done].
    specialize (Hone _ _ Htk Hl).
    destruct (runner_task_stop (exec __init__ es)) as (Hr & _).
    unfold s in Hone. congruence. }
  destruct (idle_exec es' s Hidle Hrun) as (Hc & Hd & Hq).
  split_and!; [done|done|].
  rewrite Hq. unfold s.
  by destruct (runner_task_stop (exec __init__ es)) as (_ & _ & ->).
Qed.

(** On the bus of the example [stop] comes while the worker is awaited;
    the message published afterwards stays in the queue. *)
Lemma nothing_is_delivered_after_stop_witness :
  let es := [Subscribe "tasks.start" Scenario.worker_agent_handler; Run;
             Publish Scenario.task_started; Resume 0 Returned] in
  let es' := [Publish Scenario.task_finished; Resume 0 Returned;
              Resume 0 Returned] in
  calls (trace (exec (stop (exec __init__ es)) es')) =
    [(Scenario.worker_agent_handler, Scenario.task_started)]
  ∧ _message_queue (exec (stop (exec __init__ es)) es') =
      [Scenario.task_finished].
Proof.
  intros es es'.
  destruct (nothing_is_delivered_after_stop es es') as (Hc & _ & Hq).
  - intros H. repeat (apply elem_of_cons in H as [H|H]; [discriminate|]).
    by apply elem_of_nil in H.
  - split; [rewrite Hc|rewrite Hq]; reflexivity.
Defined.

End DeliveryMore.

Module LifecycleMore.
Import Msg Bus BusFacts Views.

(** A loop that finds its flag set keeps it set through a turn, and ends
    the turn suspended: at the queue or in a handler. *)
Lemma get_loop_running (t : task_id) (q : list Message) (s : state) :
  _is_running s = true → t < length (tasks s) →
  _is_running (get_loop t q s) = true
  ∧ ∃ p, tasks (get_loop t q s) !! t = Some (mkTask p false)
         ∧ (p = AwaitGet ∨ ∃ m h rest, p = AwaitHandler m h rest).
Proof.
  revert s. induction q as [|m q IH]; intros s Hrun Ht; simpl.
  - split; [done|]. exists AwaitGet.
    rewrite list_lookup_insert_eq by done. eauto.
  - unfold _dispatch. simpl.
    destruct (all_handlers (_subscribers s) m) as [|h rest]; simpl.
    + rewrite Hrun. by apply IH.
    + split; [done|]. exists (AwaitHandler m h rest).
      rewrite list_lookup_insert_eq by done. eauto 6.
Qed.

(** X7: [run] creates the task and stores its handle, but the flag
    [_is_running] is still clear when [run] returns: it is the first turn
    of the task that sets it, and that turn leaves the loop waiting for a
    message or awaiting a handler. *)
Theorem running_flag_is_set_by_the_first_turn (s : state) (o : outcome) :
  _is_running s = false → _runner_task s = None →
  let t := length (tasks s) in
  _is_running (run s) = false
  ∧ _runner_task (run s) = Some t
  ∧ tasks (run s) = tasks s ++ [mkTask Created false]
  ∧ _is_running (resume t o (run s)) = true
  ∧ ∃ p, tasks (resume t o (run s)) !! t = Some (mkTask p false)
         ∧ (p = AwaitGet ∨ ∃ m h rest, p = AwaitHandler m h rest).
Proof.
  intros Hflag Hnone t.
  assert (run s = set_runner_task (Some t)
                    (set_tasks (tasks s ++ [mkTask Created false]) s)) as ->.
  { unfold run. rewrite Hflag, Hnone. done. }
  split_and!; try done.
  - unfold resume. simpl. unfold t. rewrite lookup_app_r by done.
    rewrite Nat.sub_diag. simpl. unfold _run_loop, while_is_running. simpl.
    apply get_loop_running; [done|]. simpl. rewrite length_app. simpl. lia.
  - unfold resume. simpl. unfold t. rewrite lookup_app_r by done.
    rewrite Nat.sub_diag. simpl. unfold _run_loop, while_is_running. simpl.
    apply get_loop_running; [done|]. simpl. rewrite length_app. simpl. lia.
Qed.

(** A new bus: after [run] and the first turn the loop waits at the
    queue with its flag set. *)
Lemma running_flag_is_set_by_the_first_turn_witness :
  _is_running (run __init__) = false
  ∧ _is_running (resume 0 Returned (run __init__)) = true.
Proof.
  destruct (running_flag_is_set_by_the_first_turn __init__ Returned)
    as (H1 & _ & _ & H2 & _); [reflexivity..|].
  by split.
Defined.

(** X8: a loop that is stopped before it got its first turn never
    starts: [run], [stop] and then the turn of the task leave the bus as
    it was, but for the record of [stop] and the ended task; the queue is
    not read and the start and end of the runner are not logged. *)
Theorem loop_stopped_before_its_first_turn (s : state) (o : outcome) :
  _is_running s = false → _runner_task s = None →
  resume (length (tasks s)) o (stop (run s)) =
    mkState (_subscribers s) (_message_queue s) false None
            (tasks s ++ [mkTask Finished false])
            (trace s ++ [Log Stopping]).
Proof.
  intros Hflag Hnone. unfold run. rewrite Hflag, Hnone. simpl.
  unfold stop. simpl. unfold cancel. simpl.
  rewrite lookup_app_r by done. rewrite Nat.sub_diag. simpl.
  unfold resume. simpl.
  rewrite insert_app_r_alt by done. rewrite Nat.sub_diag. simpl.
  rewrite lookup_app_r by done. rewrite Nat.sub_diag. simpl.
  unfold suspend, set_tasks. simpl.
  rewrite insert_app_r_alt by done. rewrite Nat.sub_diag. simpl.
  done.
Qed.

(** The test [test_protocol_lifecycle], with [stop] coming before the
    loop has started. *)
Lemma loop_stopped_before_its_first_turn_witness :
  trace (resume 0 Returned (stop (run __init__))) = [Log Stopping]
  ∧ tasks (resume 0 Returned (stop (run __init__))) = [mkTask Finished false].
Proof.
  pose proof (loop_stopped_before_its_first_turn __init__ Returned eq_refl
                eq_refl) as H.
  change (length (tasks __init__)) with 0 in H. rewrite H. by split.
Defined.

(** X9: [stop] on a bus that is stopped does nothing but log: a second
    [stop] leaves the state that the first one has reached, with one more
    record. *)
Theorem stop_twice (s : state) : stop (stop s) = log Stopping (stop s).
Proof.
  destruct (DeliveryMore.runner_task_stop s) as (Hr & Hf & _).
  unfold stop at 1. simpl. rewrite Hr.
  destruct (stop s) as [d q f r tk tr]. simpl in *. by subst.
Qed.

Lemma get_loop_unhandled (t : task_id) (q : list Message) (s : state) :
  q = _message_queue s → _is_running s = true →
  Forall (λ m, all_handlers (_subscribers s) m = []) q →
  get_loop t q s =
    suspend t AwaitGet
      (retrace (trace s ++ flat_map (unhandled t) q)
               (set_message_queue [] s)).
Proof.
  revert s. induction q as [|m q IH]; intros s Hq Hrun Hall; simpl.
  - rewrite app_nil_r. unfold suspend, set_tasks, retrace. simpl.
    by rewrite <- Hq.
  - apply Forall_cons in Hall as [Hm Hall].
    unfold _dispatch. simpl. rewrite Hm. simpl. rewrite Hrun.
    rewrite IH; [|done..].
    unfold suspend, set_tasks, retrace. simpl.
    by rewrite <- !app_assoc.
Qed.

(** X10: the loop does not suspend between messages that nobody
    handles.  A loop waiting at the queue, with its flag set, that finds
    only messages without exact or wildcard handlers takes them all in
    one turn, in order, logs the dequeue and the warning for each, and
    waits at the empty queue again. *)
Theorem unhandled_messages_are_drained (s : state) (t : task_id)
    (o : outcome) :
  tasks s !! t = Some (mkTask AwaitGet false) → _is_running s = true →
  Forall (λ m, get (_subscribers s) (topic m) = []
               ∧ get (_subscribers s) "*" = []) (_message_queue s) →
  resume t o s =
    retrace (trace s ++ flat_map (unhandled t) (_message_queue s))
            (set_message_queue [] s).
Proof.
  intros Htk Hrun Hall. unfold resume. rewrite Htk. simpl.
  rewrite get_loop_unhandled; [|done|done|].
  - unfold suspend, set_tasks, retrace. simpl.
    by rewrite list_insert_id.
  - eapply Forall_impl; [exact Hall|]. intros m [H1 H2].
    unfold all_handlers. by rewrite H1, H2.
Qed.

(** Two messages published to a started bus without subscribers. *)
Lemma unhandled_messages_are_drained_witness :
  let s := exec __init__ [Run; Resume 0 Returned;
                          Publish Scenario.task_started;
                          Publish Scenario.task_finished] in
  logged (trace (resume 0 Returned s)) =
    logged (trace s) ++
    [Dequeued "m1" "tasks.start"; NoSubscribers "tasks.start" "m1";
     Dequeued "m2" "tasks.done"; NoSubscribers "tasks.done" "m2"]
  ∧ _message_queue (resume 0 Returned s) = [].
Proof.
  intros s.
  rewrite (unhandled_messages_are_drained s 0 Returned).
  - split; reflexivity.
  - reflexivity.
  - reflexivity.
  - repeat constructor.
Defined.

End LifecycleMore.

(** ** Handlers run one after the other *)

Module Sequential.
Import Msg Bus BusFacts Views.

Lemma actions_app (t : task_id) (a b : list obs) :
  actions t (a ++ b) = actions t a ++ actions t b.
Proof. apply omap_app. Qed.

Lemma actions_silent (t : task_id) (out : list obs) :
  (∀ x, x ∈ out → actor x = None) → actions t out = [].
Proof.
  induction out as [|x out IH]; intros H; [done|].
  assert (actor x = None) by (apply H; left).
  destruct x; try discriminate. apply IH. intros; apply H. by right.
Qed.

Lemma actions_others (t t' : task_id) (out : list obs) :
  t' ≠ t → (∀ x u, x ∈ out → actor x = Some u → u = t') →
  actions t out = [].
Proof.
  intros Hne. induction out as [|x out IH]; intros H; [done|].
  assert (actions t out = []) as Hout.
  { apply IH. intros y u Hy. apply H. by right. }
  assert (∀ u, actor x = Some u → u ≠ t) as Hx.
  { intros u Hu. rewrite (H x u); [done|by left|done]. }
  unfold actions in *. simpl.
  destruct x; simpl; try done.
  - rewrite decide_False; [done|by apply Hx].
  - rewrite decide_False; [done|by apply Hx].
Qed.

Lemma sequential_app (open : option (handler * Message))
    (l l' : list action) :
  sequential open (l ++ l') ↔
  sequential open l ∧ sequential (opened open l) l'.
Proof.
  revert open. induction l as [|a l IH]; intros open; simpl; [tauto|].
  destruct a; rewrite IH; tauto.
Qed.

Lemma opened_app (open : option (handler * Message)) (l l' : list action) :
  opened open (l ++ l') = opened (opened open l) l'.
Proof.
  revert open. induction l as [|a l IH]; intros open; simpl; [done|].
  by destruct a.
Qed.

(** The turn at the queue: the task begins at most one invocation, the
    one that it is awaiting when the turn ends. *)
Lemma get_loop_actions (t : task_id) (q : list Message) (s : state) :
  ∃ out p,
    trace (get_loop t q s) = trace s ++ out
    ∧ tasks (get_loop t q s) = <[t := mkTask p false]> (tasks s)
    ∧ actions t out = match awaited p with
                      | Some (h, m) => [Begin h m]
                      | None => []
                      end.
Proof.
  revert s. induction q as [|m q IH]; intros s; simpl.
  - exists [], AwaitGet. by rewrite app_nil_r.
  - unfold _dispatch. simpl.
    destruct (all_handlers (_subscribers s) m) as [|h rest]; simpl.
    + destruct (_is_running s).
      * destruct (IH (log (NoSubscribers (topic m) (message_id m))
                        (log (Dequeued (message_id m) (topic m))
                           (observe (Get t m) (set_message_queue q s)))))
          as (out & p & Htr & Htk & Hact).
        exists (unhandled t m ++ out), p. split_and!.
        -- rewrite Htr. simpl. by rewrite <- !app_assoc.
        -- by rewrite Htk.
        -- by rewrite actions_app.
      * exists (unhandled t m ++ [Log RunnerStopped]), Finished.
        simpl. by rewrite <- !app_assoc.
    + exists [Get t m; Log (Dequeued (message_id m) (topic m)); Call t h m],
        (AwaitHandler m h rest).
      simpl. split_and!; [by rewrite <- !app_assoc|done|].
      unfold actions. simpl. by rewrite decide_True.
Qed.

Lemma while_is_running_actions (t : task_id) (s : state) :
  ∃ out p,
    trace (while_is_running t s) = trace s ++ out
    ∧ tasks (while_is_running t s) = <[t := mkTask p false]> (tasks s)
    ∧ actions t out = match awaited p with
                      | Some (h, m) => [Begin h m]
                      | None => []
                      end.
Proof.
  unfold while_is_running. destruct (_is_running s).
  - apply get_loop_actions.
  - by exists [Log RunnerStopped], Finished.
Qed.

(** What a turn of a task that has not ended adds to its invocations:
    the end of the invocation that it was awaiting, unless a
    cancellation takes the task away, and the begin of the one that it
    awaits afterwards. *)
Lemma resume_actions (t : task_id) (o : outcome) (s : state) (tk : task) :
  tasks s !! t = Some tk → at_pc tk ≠ Finished →
  ∃ out p,
    trace (resume t o s) = trace s ++ out
    ∧ tasks (resume t o s) = <[t := mkTask p false]> (tasks s)
    ∧ actions t out =
        match awaited (at_pc tk), must_cancel tk with
        | Some (h, m), false => [Finish h m]
        | _, _ => []
        end ++
        match awaited p with
        | Some (h, m) => [Begin h m]
        | None => []
        end
    ∧ (must_cancel tk = true → p = Finished).
Proof.
  intros Htk Hpc. unfold resume. rewrite Htk.
  destruct tk as [p c]. simpl in *.
  destruct p as [| |m h rest|], c; simpl; try done.
  - exists [], Finished. by rewrite app_nil_r.
  - unfold _run_loop.
    destruct (while_is_running_actions t
                (log RunnerStarting (set_is_running true s)))
      as (out & p & Htr & Hts & Hact).
    exists (Log RunnerStarting :: out), p. split_and!; try done.
    rewrite Htr. simpl. by rewrite <- app_assoc.
  - exists [Log CancellationReceived; Log RunnerStopped], Finished.
    simpl. by rewrite <- app_assoc.
  - destruct (get_loop_actions t (_message_queue s) s)
      as (out & p & Htr & Hts & Hact).
    by exists out, p.
  - exists [Log CancellationReceived; Log RunnerStopped], Finished.
    simpl. by rewrite <- app_assoc.
  - unfold handler_done.
    set (pfx := match o with
                | Returned => [Done t h m o]
                | Raised => [Done t h m o;
                             Log (HandlerError (topic m) (message_id m))]
                end).
    set (s1 := match o with
               | Returned => observe (Done t h m o) s
               | Raised => log (HandlerError (topic m) (message_id m))
                               (observe (Done t h m o) s)
               end).
    assert (trace s1 = trace s ++ pfx ∧ tasks s1 = tasks s) as [Htr1 Hts1].
    { unfold s1, pfx. destruct o; simpl; [done|by rewrite <- app_assoc]. }
    assert (actions t pfx = [Finish h m]) as Hpfx.
    { unfold pfx, actions. destruct o; simpl; by rewrite decide_True. }
    clearbody s1 pfx.
    destruct rest as [|h' rest']; simpl.
    + destruct (while_is_running_actions t s1)
        as (out & p & Htr & Hts & Hact).
      exists (pfx ++ out), p. split_and!; try done.
      * by rewrite Htr, Htr1, app_assoc.
      * by rewrite Hts, Hts1.
      * by rewrite actions_app, Hpfx, Hact.
    + exists (pfx ++ [Call t h' m]), (AwaitHandler m h' rest').
      split_and!; try done.
      * by rewrite Htr1, app_assoc.
      * by rewrite Hts1.
      * rewrite actions_app, Hpfx. unfold actions. simpl.
        by rewrite decide_True.
Qed.

Lemma one_at_a_time_quiet (t : task_id) (s s' : state) (out : list obs) :
  trace s' = trace s ++ out → actions t out = [] →
  (∀ tk', tasks s' !! t = Some tk' →
          (∃ tk, tasks s !! t = Some tk ∧ at_pc tk = at_pc tk')
          ∨ (tasks s !! t = None ∧ at_pc tk' = Created)) →
  (tasks s' !! t = None → tasks s !! t = None) →
  one_at_a_time t s → one_at_a_time t s'.
Proof.
  intros Htr Hout Hsome Hnone (H1 & H2 & H3).
  unfold one_at_a_time. rewrite Htr, actions_app, Hout, app_nil_r.
  split_and!; [done| |by auto].
  intros tk' Htk' Hpc.
  destruct (Hsome _ Htk') as [(tk & Htk & Heq)|[Htk Heq]].
  - rewrite <- Heq in *. by apply H2.
  - rewrite (H3 Htk), Heq. done.
Qed.

Lemma one_at_a_time_step (t : task_id) (s : state) (e : event) :
  one_at_a_time t s → one_at_a_time t (step s e).
Proof.
  intros Hinv.
  destruct e as [T h|T h|m| | |u o]; simpl.
  - apply (one_at_a_time_quiet t s _ [Log (Registering T)]); eauto.
  - destruct (trace_unsubscribe T h s) as (out & Htr & Hout).
    apply (one_at_a_time_quiet t s _ out); try done.
    + by apply actions_silent.
    + unfold unsubscribe. case_decide; simpl; eauto.
    + unfold unsubscribe. by case_decide.
  - apply (one_at_a_time_quiet t s _
             [Log (Publishing (message_id m) (topic m))]); eauto.
  - destruct (trace_run s) as (out & Htr & Hout).
    apply (one_at_a_time_quiet t s _ out); try done.
    + by apply actions_silent.
    + unfold run. destruct (_ && _); simpl; [|by eauto].
      intros tk' Htk'.
      destruct (decide (t < length (tasks s))) as [Hlt|Hge].
      * rewrite lookup_app_l in Htk' by done. eauto.
      * rewrite lookup_app_r in Htk' by lia.
        apply list_lookup_singleton_Some in Htk' as [_ <-].
        right. split; [|done]. apply lookup_ge_None. lia.
    + unfold run. destruct (_ && _); simpl; [|done].
      intros H%lookup_ge_None. apply lookup_ge_None.
      rewrite length_app in H. lia.
  - apply (one_at_a_time_quiet t s _ [Log Stopping]); try done.
    + apply trace_stop.
    + intros tk' Htk'. left. unfold stop in Htk'. simpl in Htk'.
      destruct (_runner_task s) as [r|]; simpl in Htk'; [|by eauto].
      by apply Registry.cancel_pc in Htk'.
    + unfold stop. simpl. destruct (_runner_task s) as [r|]; simpl; [|done].
      unfold cancel. simpl. destruct (tasks s !! r) as [[p c]|]; [|done].
      destruct p; simpl; try done;
        rewrite !lookup_ge_None, length_insert; done.
  - destruct (decide (u = t)) as [->|Hne].
    + destruct (tasks s !! t) as [tk|] eqn:Htk;
        [|by unfold resume; rewrite Htk].
      assert (at_pc tk = Finished ∨ at_pc tk ≠ Finished) as [Hfin|Hpc]
        by (destruct (at_pc tk); auto).
      { unfold resume. rewrite Htk. destruct tk as [p c]. simpl in Hfin.
        subst. by destruct c. }
      destruct (resume_actions t o s tk Htk Hpc)
        as (out & p & Htr & Hts & Hact & Hcancel).
      destruct Hinv as (H1 & H2 & _). specialize (H2 _ Htk Hpc).
      assert (t < length (tasks s)) as Hlt by by eapply lookup_lt_Some.
      unfold one_at_a_time. rewrite Htr, Hts, actions_app, Hact.
      rewrite list_lookup_insert_eq by done.
      split_and!; [| |done].
      * apply sequential_app. split; [done|]. rewrite H2.
        destruct (awaited (at_pc tk)) as [[h m]|] eqn:Haw,
                 (must_cancel tk) eqn:Hc; simpl.
        -- rewrite (Hcancel eq_refl). done.
        -- by destruct (awaited p) as [[h' m']|].
        -- rewrite (Hcancel eq_refl). done.
        -- by destruct (awaited p) as [[h' m']|].
      * intros tk' [= <-] Hp. simpl in *. rewrite opened_app, H2.
        destruct (must_cancel tk) eqn:Hc; [by rewrite Hcancel in Hp|].
        destruct (awaited (at_pc tk)) as [[h m]|] eqn:Haw; simpl;
          by destruct (awaited p) as [[h' m']|].
    + destruct (resume_cases u o s)
        as [->|(tk & p & out & _ & _ & [] & _)]; [done|].
      apply (one_at_a_time_quiet t s _ out); try done.
      * by apply (actions_others t u).
      * intros tk'. rewrite turn_tasks0, list_lookup_insert_ne by done.
        eauto.
      * by rewrite turn_tasks0, list_lookup_insert_ne.
Qed.


End Sequential.

(** ** Keys of the registry, and the bounds of the priority *)

Module KeysAndBounds.
Import PyFloat Msg Bus BusFacts Views.

(** X12: the topics that are keys of the registry.  [subscribe] makes
    its topic a key.  [unsubscribe] neither adds a key (an unknown topic
    is looked up without creating its list) nor removes one: the topic
    whose last handler is unsubscribed stays, with an empty list.  So no
    step of an execution ever removes a key. *)
Theorem registry_keys_are_kept :
  (∀ T h s, is_Some (_subscribers (subscribe T h s) !! T))
  ∧ (∀ T h s k, is_Some (_subscribers (unsubscribe T h s) !! k)
                ↔ is_Some (_subscribers s !! k))
  ∧ (∀ T h s, get (_subscribers s) T = [h] →
              _subscribers (unsubscribe T h s) !! T = Some [])
  ∧ (∀ es s k, is_Some (_subscribers s !! k) →
               is_Some (_subscribers (exec s es) !! k)).
Proof.
  assert (∀ T h s k, is_Some (_subscribers (unsubscribe T h s) !! k)
                     ↔ is_Some (_subscribers s !! k)) as Hunsub.
  { intros T h s k. unfold unsubscribe. case_decide as Hin; [|done]. simpl.
    rewrite lookup_insert. case_decide as Hk; [|done]. subst.
    split; [intros _|by eauto].
    unfold get in Hin. destruct (_subscribers s !! k); [by eauto|].
    by apply elem_of_nil in Hin. }
  split_and!; [| done | |].
  - intros T h s. unfold subscribe. simpl. rewrite lookup_insert_eq. by eauto.
  - intros T h s Hget. unfold unsubscribe. rewrite Hget.
    rewrite decide_True by by left. simpl.
    rewrite lookup_insert_eq, Hget. simpl.
    by destruct (decide (h = h)).
  - intros es. induction es as [|e es IH]; intros s k Hk; [done|].
    rewrite exec_cons. apply IH.
    destruct e as [T h|T h|m| | |t o].
    + simpl. rewrite lookup_insert. by case_decide; eauto.
    + by apply Hunsub.
    + done.
    + by rewrite (RegistryMore.subscribers_step s Run).
    + by rewrite (RegistryMore.subscribers_step s Stop).
    + by rewrite (RegistryMore.subscribers_step s (Resume t o)).
Qed.

Lemma args_priority_errors (s t : string) (pl : list (string * value))
    (p : pyfloat) :
  validate (mkArgs (Some s) (Some t) (Some pl) None None None None (Some p)
                   None None) = check_priority (Some p).
Proof. done. Qed.

(** X13: the bounds of [priority] are closed and exclude the values that
    are no numbers of the interval: with the required fields given, a
    construction with the priority [p] succeeds exactly when [p] is a
    finite value between 0 and 1, both included; a NaN and the two
    infinities are rejected. *)
Theorem priority_is_in_the_closed_unit_interval (env : factories)
    (s t : string) (pl : list (string * value)) (p : pyfloat) :
  (∃ m, construct env
          (mkArgs (Some s) (Some t) (Some pl) None None None None (Some p)
                  None None) = inl m ∧ priority m = p)
  ↔ ∃ q, p = Finite q ∧ (0 <= q)%Q ∧ (q <= 1)%Q.
Proof.
  unfold construct. simpl. rewrite args_priority_errors.
  unfold check_priority, PyFloat.le, ge, zero, one.
  split.
  - intros (m & Hm & _).
    destruct p as [q| | |]; simpl in Hm; try discriminate.
    exists q. split; [done|].
    destruct (Qle_bool q 1) eqn:H1; simpl in Hm; [|discriminate].
    destruct (Qle_bool 0 q) eqn:H0; simpl in Hm; [|discriminate].
    split; by apply Qle_bool_iff.
  - intros (q & -> & H0 & H1). simpl.
    apply Qle_bool_iff in H0, H1. rewrite H0, H1. simpl. by eexists.
Qed.

End KeysAndBounds.

(** ** No message is dropped silently *)

Module Accounting.
Import Msg Bus BusFacts Views.

Lemma accounted_app (a b : list obs) :
  accounted a → accounted b → accounted (a ++ b).
Proof.
  intros Ha Hb t m [Hin|Hin]%elem_of_app.
  - destruct (Ha _ _ Hin) as [H1 [H2|[h H2]]]; split;
      try (apply elem_of_app; by left).
    + left. apply elem_of_app; by left.
    + right. exists h. apply elem_of_app; by left.
  - destruct (Hb _ _ Hin) as [H1 [H2|[h H2]]]; split;
      try (apply elem_of_app; by right).
    + left. apply elem_of_app; by right.
    + right. exists h. apply elem_of_app; by right.
Qed.

Lemma accounted_no_get (tr : list obs) :
  dequeued tr = [] → accounted tr.
Proof.
  intros Hd t m Hin.
  assert (m ∈ dequeued tr) as H
    by (apply list_elem_of_omap; by exists (Get t m)).
  rewrite Hd in H. by apply elem_of_nil in H.
Qed.

Lemma accounted_unhandled (t : task_id) (m : Message) :
  accounted (unhandled t m).
Proof.
  intros t' m' Hin. unfold unhandled in *.
  apply elem_of_cons in Hin as [[= -> ->]|Hin].
  - split; [by right; left|]. left. by right; right; left.
  - repeat (apply elem_of_cons in Hin as [?|Hin]; [done|]).
    by apply elem_of_nil in Hin.
Qed.

Lemma get_loop_accounted (t : task_id) (q : list Message) (s : state) :
  ∃ out, trace (get_loop t q s) = trace s ++ out ∧ accounted out.
Proof.
  revert s. induction q as [|m q IH]; intros s; simpl.
  - exists []. split; [by rewrite app_nil_r|by apply accounted_no_get].
  - unfold _dispatch. simpl.
    destruct (all_handlers (_subscribers s) m) as [|h rest]; simpl.
    + destruct (_is_running s).
      * destruct (IH (log (NoSubscribers (topic m) (message_id m))
                        (log (Dequeued (message_id m) (topic m))
                           (observe (Get t m) (set_message_queue q s)))))
          as (out & Htr & Hacc).
        exists (unhandled t m ++ out). split.
        -- rewrite Htr. simpl. by rewrite <- !app_assoc.
        -- apply accounted_app; [apply accounted_unhandled|done].
      * exists (unhandled t m ++ [Log RunnerStopped]). split.
        -- simpl. by rewrite <- !app_assoc.
        -- apply accounted_app; [apply accounted_unhandled|].
           by apply accounted_no_get.
    + exists [Get t m; Log (Dequeued (message_id m) (topic m)); Call t h m].
      split; [simpl; by rewrite <- !app_assoc|].
      intros t' m' Hin.
      apply elem_of_cons in Hin as [[= -> ->]|Hin].
      * split; [by right; left|]. right. exists h. by right; right; left.
      * repeat (apply elem_of_cons in Hin as [?|Hin]; [done|]).
        by apply elem_of_nil in Hin.
Qed.

Lemma while_is_running_accounted (t : task_id) (s : state) :
  ∃ out, trace (while_is_running t s) = trace s ++ out ∧ accounted out.
Proof.
  unfold while_is_running. destruct (_is_running s).
  - apply get_loop_accounted.
  - exists [Log RunnerStopped]. split; [done|by apply accounted_no_get].
Qed.

Lemma resume_accounted (t : task_id) (o : outcome) (s : state) :
  ∃ out, trace (resume t o s) = trace s ++ out ∧ accounted out.
Proof.
  assert (∃ out, trace s = trace s ++ out ∧ accounted out) as Hsame.
  { exists []. split; [by rewrite app_nil_r|by apply accounted_no_get]. }
  unfold resume. destruct (tasks s !! t) as [[p c]|]; [|done]. simpl.
  destruct p as [| |m h rest|], c; simpl; try done.
  - unfold _run_loop.
    destruct (while_is_running_accounted t
                (log RunnerStarting (set_is_running true s)))
      as (out & Htr & Hacc).
    exists ([Log RunnerStarting] ++ out). split.
    + rewrite Htr. simpl. by rewrite <- app_assoc.
    + apply accounted_app; [by apply accounted_no_get|done].
  - exists [Log CancellationReceived; Log RunnerStopped].
    split; [simpl; by rewrite <- app_assoc|by apply accounted_no_get].
  - apply get_loop_accounted.
  - exists [Log CancellationReceived; Log RunnerStopped].
    split; [simpl; by rewrite <- app_assoc|by apply accounted_no_get].
  - unfold handler_done.
    set (pfx := match o with
                | Returned => [Done t h m o]
                | Raised => [Done t h m o;
                             Log (HandlerError (topic m) (message_id m))]
                end).
    set (s1 := match o with
               | Returned => observe (Done t h m o) s
               | Raised => log (HandlerError (topic m) (message_id m))
                               (observe (Done t h m o) s)
               end).
    assert (trace s1 = trace s ++ pfx) as Htr1.
    { unfold s1, pfx. destruct o; simpl; [done|by rewrite <- app_assoc]. }
    assert (accounted pfx) as Hpfx.
    { apply accounted_no_get. unfold pfx. by destruct o. }
    clearbody s1 pfx.
    destruct rest as [|h' rest']; simpl.
    + destruct (while_is_running_accounted t s1) as (out & Htr & Hacc).
      exists (pfx ++ out). split; [by rewrite Htr, Htr1, app_assoc|].
      by apply accounted_app.
    + exists (pfx ++ [Call t h' m]). split; [by rewrite Htr1, app_assoc|].
      apply accounted_app; [done|by apply accounted_no_get].
Qed.

Lemma step_accounted (s : state) (e : event) :
  accounted (trace s) → accounted (trace (step s e)).
Proof.
  intros Hacc.
  assert (∀ out, (∀ x, x ∈ out → actor x = None) →
                 accounted (trace s ++ out)) as Hsilent.
  { intros out Hout. apply accounted_app; [done|].
    by apply accounted_no_get, silent_dequeued. }
  destruct e as [T h|T h|m| | |t o]; simpl.
  - apply Hsilent. intros x ->%list_elem_of_singleton. done.
  - destruct (trace_unsubscribe T h s) as (out & -> & Hout). by apply Hsilent.
  - apply Hsilent. intros x ->%list_elem_of_singleton. done.
  - destruct (trace_run s) as (out & -> & Hout). by apply Hsilent.
  - rewrite trace_stop. apply Hsilent.
    intros x ->%list_elem_of_singleton. done.
  - destruct (resume_accounted t o s) as (out & -> & Hout).
    by apply accounted_app.
Qed.

(** X14: no message leaves the queue silently.  In every execution, a
    message that a task has dequeued is logged as dequeued, and it is
    either reported by the warning that it has no subscribers or handed
    to a handler by that task. *)
Theorem every_dequeued_message_is_accounted_for (es : list event)
    (t : task_id) (m : Message) :
  Get t m ∈ trace (exec __init__ es) →
  Log (Dequeued (message_id m) (topic m)) ∈ trace (exec __init__ es)
  ∧ (Log (NoSubscribers (topic m) (message_id m)) ∈ trace (exec __init__ es)
     ∨ ∃ h, Call t h m ∈ trace (exec __init__ es)).
Proof.
  assert (accounted (trace (exec __init__ es))) as H; [|by apply H].
  apply (exec_invariant (λ s, accounted (trace s))).
  - by apply accounted_no_get.
  - apply step_accounted.
Qed.

(** The bus of the example after the first turn that follows the
    publication: the message was dequeued and handed to the worker. *)
Lemma every_dequeued_message_is_accounted_for_witness :
  ∃ h, Call 0 h Scenario.task_started
       ∈ trace (exec __init__
                  [Subscribe "tasks.start" Scenario.worker_agent_handler;
                   Run; Publish Scenario.task_started; Resume 0 Returned]).
Proof.
  destruct (every_dequeued_message_is_accounted_for
              [Subscribe "tasks.start" Scenario.worker_agent_handler;
               Run; Publish Scenario.task_started; Resume 0 Returned]
              0 Scenario.task_started) as [_ [H|H]].
  - vm_compute. do 3 right. by left.
  - exfalso. vm_compute in H.
    repeat (apply elem_of_cons in H as [H|H]; [discriminate|]).
    by apply elem_of_nil in H.
  - exact H.
Defined.

End Accounting.

(** ** Who invokes handlers, and what a restart finds *)

Module Restart.
Import Msg Bus BusFacts Views.

(** X15: handlers are invoked, and messages dequeued, in the turns of
    the loop only.  [subscribe], [unsubscribe], [publish], [run] and
    [stop] return without any handler having been invoked and without
    taking a message from the queue: [publish] does not wait for the
    delivery, and [run] does not run the loop. *)
Theorem only_turns_deliver (s : state) (e : event) :
  (∀ t o, e ≠ Resume t o) →
  calls (trace (step s e)) = calls (trace s)
  ∧ dequeued (trace (step s e)) = dequeued (trace s).
Proof.
  intros He.
  assert (∀ out, (∀ x, x ∈ out → actor x = None) →
                 calls (trace s ++ out) = calls (trace s)
                 ∧ dequeued (trace s ++ out) = dequeued (trace s)) as Hsilent.
  { intros out Hout. rewrite calls_app, dequeued_app.
    by rewrite (DeliveryMore.calls_silent out), (silent_dequeued out),
         !app_nil_r. }
  destruct e as [T h|T h|m| | |t o]; simpl.
  - apply Hsilent. intros x ->%list_elem_of_singleton. done.
  - destruct (trace_unsubscribe T h s) as (out & -> & Hout). by apply Hsilent.
  - apply Hsilent. intros x ->%list_elem_of_singleton. done.
  - destruct (trace_run s) as (out & -> & Hout). by apply Hsilent.
  - rewrite trace_stop. apply Hsilent.
    intros x ->%list_elem_of_singleton. done.
  - by destruct (He t o).
Qed.

(** Publishing on the running bus of the example invokes nobody yet. *)
Lemma only_turns_deliver_witness :
  calls (trace (publish Scenario.task_started
                  (resume 0 Returned Scenario.example_bus))) = [].
Proof.
  destruct (only_turns_deliver (resume 0 Returned Scenario.example_bus)
              (Publish Scenario.task_started)) as [H _].
  - discriminate.
  - etrans; [exact H|reflexivity].
Defined.

Lemma at_rest_step (s : state) (e : event) :
  at_rest s → e ≠ Run → at_rest (step s e).
Proof.
  intros (Hidle & Hflag & Hnone) He.
  destruct (DeliveryMore.idle_step s e Hidle He) as (Hidle' & _).
  split_and!; [done|..].
  - destruct e as [T h|T h|m| | |t o]; simpl; try done.
    + unfold unsubscribe. by case_decide.
    + by destruct (DeliveryMore.runner_task_stop s) as (_ & -> & _).
    + unfold resume. destruct (tasks s !! t) as [[p c]|] eqn:Htk; [|done].
      specialize (Hidle _ _ Htk). unfold live in Hidle. simpl in *.
      destruct p, c; simpl in *; done.
  - destruct e as [T h|T h|m| | |t o]; simpl; try done.
    + unfold unsubscribe. by case_decide.
    + by destruct (DeliveryMore.runner_task_stop s) as (-> & _).
    + destruct (resume_cases t o s)
        as [->|(tk & p & out & _ & _ & [] & _)]; [done|]. congruence.
Qed.

Lemma at_rest_exec (es : list event) (s : state) :
  at_rest s → Run ∉ es → at_rest (exec s es).
Proof.
  revert s. induction es as [|e es IH]; intros s Hrest Hrun; [done|].
  rewrite exec_cons. apply IH.
  - apply at_rest_step; [done|]. intros ->. apply Hrun. by left.
  - intros ?. apply Hrun. by right.
Qed.

Lemma at_rest_stop (es : list event) : at_rest (stop (exec __init__ es)).
Proof.
  destruct (DeliveryMore.runner_task_stop (exec __init__ es))
    as (Hr & Hf & _).
  split_and!; [|done..].
  destruct (invariant_stop _ (invariant_exec es)) as (Hone & _).
  intros t tk Htk. destruct (live tk) eqn:Hl; [|done].
  specialize (Hone _ _ Htk Hl). congruence.
Qed.

(** X16: the messages that wait in the queue when the bus is stopped,
    and those published while it is stopped, are not discarded: a [run]
    after the [stop] creates a task whose first turn logs the start of
    the runner and dequeues the message at the head of the queue. *)
Theorem restart_takes_up_the_queue (es es' : list event) (m : Message)
    (q : list Message) (o : outcome) :
  Run ∉ es' →
  let s := exec (stop (exec __init__ es)) es' in
  _message_queue s = m :: q →
  _runner_task (run s) = Some (length (tasks s))
  ∧ ∃ out, trace (resume (length (tasks s)) o (run s)) =
             trace s ++ [Log RunnerStarting; Get (length (tasks s)) m;
                         Log (Dequeued (message_id m) (topic m))] ++ out.
Proof.
  intros Hrun s Hq.
  destruct (at_rest_exec es' _ (at_rest_stop es) Hrun) as (_ & Hflag & Hnone).
  fold s in Hflag, Hnone.
  assert (run s = set_runner_task (Some (length (tasks s)))
                    (set_tasks (tasks s ++ [mkTask Created false]) s)) as ->.
  { unfold run. by rewrite Hflag, Hnone. }
  split; [done|].
  unfold resume. simpl. rewrite lookup_app_r by done.
  rewrite Nat.sub_diag. simpl.
  unfold _run_loop, while_is_running. simpl. rewrite Hq. simpl.
  unfold _dispatch. simpl.
  destruct (all_handlers (_subscribers s) m) as [|h rest]; simpl.
  - destruct (Accounting.get_loop_accounted (length (tasks s)) q
                (log (NoSubscribers (topic m) (message_id m))
                   (log (Dequeued (message_id m) (topic m))
                      (observe (Get (length (tasks s)) m)
                         (set_message_queue q
                            (log RunnerStarting
                               (set_is_running true
                                  (set_runner_task (Some (length (tasks s)))
                                     (set_tasks
                                        (tasks s ++ [mkTask Created false])
                                        s)))))))))
      as (out & -> & _).
    simpl. eexists. by rewrite <- !app_assoc.
  - eexists. by rewrite <- !app_assoc.
Qed.

(** The message published after [stop] is dequeued by the task that the
    second [run] creates. *)
Lemma restart_takes_up_the_queue_witness :
  let s := exec (stop (exec __init__ [Run; Resume 0 Returned]))
             [Resume 0 Returned; Publish Scenario.task_started] in
  dequeued (trace (resume 1 Returned (run s))) = [Scenario.task_started].
Proof.
  intros s.
  destruct (restart_takes_up_the_queue [Run; Resume 0 Returned]
              [Resume 0 Returned; Publish Scenario.task_started]
              Scenario.task_started [] Returned) as [_ [out Hout]].
  - intros H. repeat (apply elem_of_cons in H as [H|H]; [discriminate|]).
    by apply elem_of_nil in H.
  - reflexivity.
  - reflexivity.
Defined.

End Restart.

(** ** What becomes of the exceptions of a handler *)

Module Containment.
Import Msg Bus BusFacts Views.

Lemma get_loop_next (t : task_id) (m : Message) (q : list Message)
    (s : state) :
  ∃ out, trace (get_loop t (m :: q) s) =
           trace s ++ Get t m :: Log (Dequeued (message_id m) (topic m))
                   :: out.
Proof.
  simpl. unfold _dispatch. simpl.
  destruct (all_handlers (_subscribers s) m) as [|h rest]; simpl.
  - destruct (_is_running s).
    + destruct (Accounting.get_loop_accounted t q
                  (log (NoSubscribers (topic m) (message_id m))
                     (log (Dequeued (message_id m) (topic m))
                        (observe (Get t m) (set_message_queue q s)))))
        as (out & -> & _).
      simpl. eexists. by rewrite <- !app_assoc.
    + simpl. eexists. by rewrite <- !app_assoc.
  - eexists. by rewrite <- !app_assoc.
Qed.

(** C2, as stated, fails for the exceptions that are no [Exception].
    On the bus of the example the worker is awaited with the first
    message while a second one waits in the queue, and the worker raises
    [asyncio.CancelledError]: nothing is logged as an error of the
    handler, the supervisor, which comes after the worker, is not
    invoked, the loop ends, and the second message stays in the queue,
    for the task has ended and [run] refuses to start another one. *)
Lemma cancelled_error_of_a_handler_ends_the_loop :
  let w := Scenario.worker_agent_handler in
  let m := Scenario.task_started in
  let s := exec Scenario.example_bus
             [Publish m; Publish Scenario.task_finished;
              Resume 0 Returned] in
  let s' := deliver 0 RaisedCancelled s in
  tasks s !! 0 =
    Some (mkTask (AwaitHandler m w [Scenario.supervisor_agent_handler]) false)
  ∧ tasks s' !! 0 = Some (mkTask Finished false)
  ∧ calls (trace s') = [(w, m)]
  ∧ logged (trace s') =
      logged (trace s) ++ [CancellationReceived; RunnerStopped]
  ∧ _message_queue s' = [Scenario.task_finished]
  ∧ run s' = log AlreadyRunning s'
  ∧ ∀ o, resume 0 o s' = s'.
Proof.
  intros w m s s'. split_and!; reflexivity.
Qed.

(** C2 (amended): an exception that derives from [Exception] and
    escapes a handler is caught and logged with the topic and the message
    id, and the loop goes on as after a return.  When handlers are left,
    the next one is invoked with the same message in the same turn.
    When the handler was the last one, [_dispatch] returns and the loop,
    its flag being set, takes the next message from the queue or waits
    for one: it does not end.  Over whole executions, raising handlers
    change nothing but the trace, and there nothing but the error
    records: the same messages are dequeued and the same invocations
    made as when every handler returns.  An exception that does not
    derive from [Exception] is not caught: no handler is invoked after
    it and the task ends, through the cancellation branch of [_run_loop]
    for a [CancelledError], at once for any other. *)
Theorem exceptions_are_contained :
  (∀ t m h h' rest s,
     tasks s !! t = Some (mkTask (AwaitHandler m h (h' :: rest)) false) →
     resume t Raised s =
       suspend t (AwaitHandler m h' rest)
         (observe (Call t h' m)
            (log (HandlerError (topic m) (message_id m))
               (observe (Done t h m Raised) s))))
  ∧ (∀ t m h s,
       tasks s !! t = Some (mkTask (AwaitHandler m h []) false) →
       _is_running s = true →
       resume t Raised s =
         get_loop t (_message_queue s)
           (log (HandlerError (topic m) (message_id m))
              (observe (Done t h m Raised) s))
       ∧ _is_running (resume t Raised s) = true
       ∧ (∃ p, tasks (resume t Raised s) !! t = Some (mkTask p false)
               ∧ (p = AwaitGet ∨ ∃ m' h' rest', p = AwaitHandler m' h' rest'))
       ∧ (∀ m2 q, _message_queue s = m2 :: q →
            ∃ out, trace (resume t Raised s) =
                     trace s ++
                     Done t h m Raised
                     :: Log (HandlerError (topic m) (message_id m))
                     :: Get t m2
                     :: Log (Dequeued (message_id m2) (topic m2)) :: out))
  ∧ (∀ s es,
       exec s es = retrace (trace (exec s es)) (exec s (calm es))
       ∧ without_errors (trace (exec s es)) =
           without_errors (trace (exec s (calm es)))
       ∧ calls (trace (exec s es)) = calls (trace (exec s (calm es)))
       ∧ dequeued (trace (exec s es)) = dequeued (trace (exec s (calm es))))
  ∧ (∀ t m h rest s,
       tasks s !! t = Some (mkTask (AwaitHandler m h rest) false) →
       deliver t RaisedCancelled s = cancelled t s
       ∧ deliver t RaisedBase s = suspend t Finished s
       ∧ calls (trace (deliver t RaisedCancelled s)) = calls (trace s)
       ∧ calls (trace (deliver t RaisedBase s)) = calls (trace s)
       ∧ tasks (deliver t RaisedCancelled s) !! t = Some (mkTask Finished false)
       ∧ tasks (deliver t RaisedBase s) !! t = Some (mkTask Finished false)).
Proof.
  split_and!.
  - intros t m h h' rest s Htk. unfold resume. by rewrite Htk.
  - intros t m h s Htk Hrun.
    assert (resume t Raised s =
            get_loop t (_message_queue s)
              (log (HandlerError (topic m) (message_id m))
                 (observe (Done t h m Raised) s))) as Heq.
    { unfold resume. rewrite Htk. simpl. unfold handler_done. simpl.
      unfold while_is_running. simpl. by rewrite Hrun. }
    assert (t < length (tasks s)) as Hlt by by eapply lookup_lt_Some.
    rewrite Heq. split_and!; [done|..].
    + by apply LifecycleMore.get_loop_running.
    + by apply LifecycleMore.get_loop_running.
    + intros m2 q ->.
      destruct (get_loop_next t m2 q
                  (log (HandlerError (topic m) (message_id m))
                     (observe (Done t h m Raised) s))) as (out & ->).
      exists out. simpl. by rewrite <- !app_assoc.
  - intros s es.
    destruct (Errors.exec_calm es s s) as [H1 H2];
      [by rewrite Errors.retrace_id|done|].
    split_and!; [done|done|..].
    + by rewrite <- Errors.calls_without_errors, H2,
           Errors.calls_without_errors.
    + by rewrite <- Errors.dequeued_without_errors, H2,
           Errors.dequeued_without_errors.
  - intros t m h rest s Htk.
    assert (t < length (tasks s)) as Hlt by by eapply lookup_lt_Some.
    unfold deliver. rewrite Htk. unfold escaped.
    split_and!; try done; simpl.
    + by rewrite <- app_assoc, calls_app, app_nil_r.
    + by rewrite list_lookup_insert_eq.
    + by rewrite list_lookup_insert_eq.
Qed.

(** The worker of the example raises a [ValueError] while a second
    message waits: the supervisor is invoked with the first message all
    the same. *)
Lemma exceptions_are_contained_witness :
  let s := exec Scenario.example_bus
             [Publish Scenario.task_started; Publish Scenario.task_finished;
              Resume 0 Returned] in
  calls (trace (resume 0 Raised s)) =
    [(Scenario.worker_agent_handler, Scenario.task_started);
     (Scenario.supervisor_agent_handler, Scenario.task_started)]
  ∧ logged (trace (resume 0 Raised s)) =
      logged (trace s) ++ [HandlerError "tasks.start" "m1"].
Proof.
  intros s.
  rewrite (proj1 exceptions_are_contained 0 Scenario.task_started
             Scenario.worker_agent_handler
             Scenario.supervisor_agent_handler [] s eq_refl).
  split; reflexivity.
Defined.

End Containment.

(** ** The order of the dispatches *)

Module Ordering.
Import Msg Bus BusFacts Views.

Lemma gets_closed_app (t : task_id) (open : option (handler * Message))
    (a b : list obs) :
  gets_closed t open (a ++ b) ↔
  gets_closed t open a ∧ gets_closed t (opened open (actions t a)) b.
Proof.
  revert open. induction a as [|x a IH]; intros open; simpl; [tauto|].
  destruct x as [r|u m|u h m|u h m o]; unfold actions; simpl.
  - apply IH.
  - rewrite IH. unfold actions. tauto.
  - rewrite IH. unfold actions. by destruct (decide (u = t)).
  - rewrite IH. unfold actions. by destruct (decide (u = t)).
Qed.

Lemma gets_closed_none (t : task_id) (tr : list obs) :
  actions t tr = [] → gets_closed t None tr.
Proof.
  induction tr as [|x tr IH]; [done|].
  destruct x as [r|u m|u h m|u h m o]; unfold actions; simpl; try done.
  - intros H. split; [done|]. by apply IH.
  - destruct (decide (u = t)); [done|]. apply IH.
  - destruct (decide (u = t)); [done|]. apply IH.
Qed.

Lemma gets_closed_silent (t : task_id) (open : option (handler * Message))
    (tr : list obs) :
  (∀ x, x ∈ tr → actor x = None) → gets_closed t open tr.
Proof.
  induction tr as [|x tr IH]; intros H; [done|].
  assert (actor x = None) by (apply H; left).
  destruct x; try discriminate. simpl. apply IH. intros; apply H. by right.
Qed.

Lemma gets_closed_unhandled (t : task_id) (m : Message) (out : list obs) :
  gets_closed t None out → gets_closed t None (unhandled t m ++ out).
Proof. intros H. simpl. by split. Qed.

(** In a turn at the queue the task dequeues only while it has no
    invocation open: an invocation begins at the end of the turn. *)
Lemma get_loop_gets_closed (t : task_id) (q : list Message) (s : state) :
  ∃ out, trace (get_loop t q s) = trace s ++ out ∧ gets_closed t None out.
Proof.
  revert s. induction q as [|m q IH]; intros s; simpl.
  - exists []. by rewrite app_nil_r.
  - unfold _dispatch. simpl.
    destruct (all_handlers (_subscribers s) m) as [|h rest]; simpl.
    + destruct (_is_running s).
      * destruct (IH (log (NoSubscribers (topic m) (message_id m))
                        (log (Dequeued (message_id m) (topic m))
                           (observe (Get t m) (set_message_queue q s)))))
          as (out & Htr & Hout).
        exists (unhandled t m ++ out). split.
        -- rewrite Htr. simpl. by rewrite <- !app_assoc.
        -- by apply gets_closed_unhandled.
      * exists (unhandled t m ++ [Log RunnerStopped]). split.
        -- simpl. by rewrite <- !app_assoc.
        -- by apply gets_closed_unhandled.
    + exists [Get t m; Log (Dequeued (message_id m) (topic m)); Call t h m].
      split; [simpl; by rewrite <- !app_assoc|]. simpl. done.
Qed.

Lemma while_is_running_gets_closed (t : task_id) (s : state) :
  ∃ out, trace (while_is_running t s) = trace s ++ out
         ∧ gets_closed t None out.
Proof.
  unfold while_is_running. destruct (_is_running s).
  - apply get_loop_gets_closed.
  - by exists [Log RunnerStopped].
Qed.

(** A turn of a task: what it emits dequeues only after the invocation
    that the task was awaiting has ended. *)
Lemma resume_gets_closed (t : task_id) (o : outcome) (s : state)
    (tk : task) :
  tasks s !! t = Some tk →
  ∃ out, trace (resume t o s) = trace s ++ out
         ∧ gets_closed t (awaited (at_pc tk)) out.
Proof.
  intros Htk. unfold resume. rewrite Htk. destruct tk as [p c]. simpl.
  destruct p as [| |m h rest|], c; simpl.
  - exists []. by rewrite app_nil_r.
  - unfold _run_loop.
    destruct (while_is_running_gets_closed t
                (log RunnerStarting (set_is_running true s)))
      as (out & Htr & Hout).
    exists (Log RunnerStarting :: out). split; [|done].
    rewrite Htr. simpl. by rewrite <- app_assoc.
  - exists [Log CancellationReceived; Log RunnerStopped].
    split; [simpl; by rewrite <- app_assoc|done].
  - apply get_loop_gets_closed.
  - exists [Log CancellationReceived; Log RunnerStopped].
    split; [simpl; by rewrite <- app_assoc|done].
  - unfold handler_done.
    set (pfx := match o with
                | Returned => [Done t h m o]
                | Raised => [Done t h m o;
                             Log (HandlerError (topic m) (message_id m))]
                end).
    set (s1 := match o with
               | Returned => observe (Done t h m o) s
               | Raised => log (HandlerError (topic m) (message_id m))
                               (observe (Done t h m o) s)
               end).
    assert (trace s1 = trace s ++ pfx) as Htr1.
    { unfold s1, pfx. destruct o; simpl; [done|by rewrite <- app_assoc]. }
    assert (∀ out, gets_closed t None out →
                   gets_closed t (Some (h, m)) (pfx ++ out)) as Hpfx.
    { intros out Hout. unfold pfx. destruct o; simpl;
        by destruct (decide (t = t)). }
    clearbody s1 pfx.
    destruct rest as [|h' rest']; simpl.
    + destruct (while_is_running_gets_closed t s1) as (out & Htr & Hout).
      exists (pfx ++ out). split; [by rewrite Htr, Htr1, app_assoc|].
      by apply Hpfx.
    + exists (pfx ++ [Call t h' m]). split; [by rewrite Htr1, app_assoc|].
      by apply Hpfx.
  - exists []. by rewrite app_nil_r.
  - exists []. by rewrite app_nil_r.
Qed.

(** A live task that finds the flag set, or sets it in its first turn,
    ends its turn suspended, with the flag set. *)
Lemma resume_live (t : task_id) (o : outcome) (s : state) (tk : task) :
  tasks s !! t = Some tk → live tk = true →
  (at_pc tk ≠ Created → _is_running s = true) →
  _is_running (resume t o s) = true
  ∧ ∃ p, tasks (resume t o s) !! t = Some (mkTask p false)
         ∧ (p = AwaitGet ∨ ∃ m h rest, p = AwaitHandler m h rest).
Proof.
  intros Htk Hlive Hflag.
  assert (t < length (tasks s)) as Hlt by by eapply lookup_lt_Some.
  unfold resume. rewrite Htk. destruct tk as [p c]. unfold live in Hlive.
  simpl in *.
  destruct p as [| |m h rest|], c; simpl in *; try done.
  - unfold _run_loop, while_is_running. simpl.
    by apply LifecycleMore.get_loop_running.
  - apply LifecycleMore.get_loop_running; [by apply Hflag|done].
  - unfold handler_done.
    assert (_is_running s = true) as Hrun by by apply Hflag.
    destruct rest as [|h' rest']; simpl.
    + unfold while_is_running.
      destruct o; simpl; rewrite Hrun;
        by apply LifecycleMore.get_loop_running.
    + destruct o; simpl; (split; [done|]);
        exists (AwaitHandler m h' rest');
        rewrite list_lookup_insert_eq by done; eauto 6.
Qed.

Lemma actions_app_other (t : task_id) (a b : list obs) :
  actions t b = [] → actions t (a ++ b) = actions t a.
Proof. intros H. by rewrite Sequential.actions_app, H, app_nil_r. Qed.

Lemma steady_quiet (s s' : state) (out : list obs) :
  tasks s' = tasks s → _is_running s' = _is_running s →
  trace s' = trace s ++ out → (∀ x, x ∈ out → actor x = None) →
  invariant s' → (∀ t, one_at_a_time t s') →
  steady s → steady s'.
Proof.
  intros Hts Hfl Htr Hout Hinv Hone (_ & Hlive & Hclosed).
  split_and!; [done| |].
  - intros t tk. rewrite Hts, Hfl. apply Hlive.
  - intros t. split; [done|]. rewrite Htr. apply gets_closed_app.
    split; [apply Hclosed|]. by apply gets_closed_silent.
Qed.

Lemma steady_init : steady __init__.
Proof.
  split_and!; [apply invariant_init| |].
  - intros t tk H. simpl in H. by rewrite lookup_nil in H.
  - intros t. by split_and!.
Qed.

Lemma steady_step (s : state) (e : event) :
  steady s → e ≠ Stop → steady (step s e).
Proof.
  intros Hsteady Hstop.
  assert (invariant (step s e)) as Hinv
    by (apply invariant_step, Hsteady).
  assert (∀ t, one_at_a_time t (step s e)) as Hone
    by (intros t; apply Sequential.one_at_a_time_step, Hsteady).
  destruct e as [T h|T h|m| | |u o]; simpl in *; try done.
  - apply (steady_quiet s _ [Log (Registering T)]); try done.
    intros x ->%list_elem_of_singleton. done.
  - destruct (trace_unsubscribe T h s) as (out & Htr & Hout).
    apply (steady_quiet s _ out); try done;
      unfold unsubscribe; by case_decide.
  - apply (steady_quiet s _ [Log (Publishing (message_id m) (topic m))]);
      try done.
    intros x ->%list_elem_of_singleton. done.
  - destruct Hsteady as (_ & Hlive & Hclosed).
    destruct (trace_run s) as (out & Htr & Hout).
    split_and!; [done| |].
    + unfold run. destruct (_ && _); simpl; [|apply Hlive].
      intros t tk Htk.
      destruct (decide (t < length (tasks s))) as [Hlt|Hge].
      * rewrite lookup_app_l in Htk by done. by apply (Hlive t).
      * rewrite lookup_app_r in Htk by lia.
        apply list_lookup_singleton_Some in Htk as [_ <-]. done.
    + intros t. split; [done|]. rewrite Htr. apply gets_closed_app.
      split; [apply Hclosed|]. by apply gets_closed_silent.
  - destruct Hsteady as ((Hloop & _) & Hlive & Hclosed).
    destruct (resume_cases u o s)
      as [Heq|(tk & p & out & Htk & Hpc & [] & _)].
    { rewrite Heq in *. by split_and!. }
    destruct (Hlive _ _ Htk) as [Hl Hflag].
    assert (u < length (tasks s)) as Hlt by by eapply lookup_lt_Some.
    destruct (resume_live u o s tk Htk Hl Hflag)
      as (Hrun & p' & Htk' & Hp').
    split_and!; [done| |].
    + intros t tk0. rewrite Hrun.
      destruct (decide (t = u)) as [->|Hne].
      * intros Htk0. unfold task_id in *.
        assert (tk0 = mkTask p' false) as -> by congruence.
        split; [|done].
        unfold live. simpl. by destruct Hp' as [->|(? & ? & ? & ->)].
      * rewrite turn_tasks0, list_lookup_insert_ne by done.
        intros Htk0. split; [by apply (Hlive t tk0)|done].
    + intros t. split; [done|]. rewrite turn_trace0.
      destruct (decide (t = u)) as [->|Hne].
      * destruct (resume_gets_closed u o s tk Htk) as (out' & Htr' & Hout').
        rewrite turn_trace0 in Htr'. apply app_inv_head in Htr' as <-.
        apply gets_closed_app. split; [apply Hclosed|].
        destruct (Hclosed u) as [(_ & Hopen & _) _].
        by rewrite (Hopen _ Htk Hpc).
      * apply gets_closed_none. rewrite actions_app_other.
        -- destruct (Hclosed t) as [(_ & _ & Hnone) _]. apply Hnone.
           destruct (tasks s !! t) as [tk0|] eqn:Htk0; [|done].
           destruct (Hlive _ _ Htk0) as [Hl0 _].
           pose proof (Hloop _ _ Htk Hl). pose proof (Hloop _ _ Htk0 Hl0).
           congruence.
        -- by apply (Sequential.actions_others t u).
Qed.

Lemma steady_exec (es : list event) (s : state) :
  steady s → Stop ∉ es → steady (exec s es).
Proof.
  revert s. induction es as [|e es IH]; intros s Hs Hstop; [done|].
  rewrite exec_cons. apply IH.
  - apply steady_step; [done|]. intros ->. apply Hstop. by left.
  - intros ?. apply Hstop. by right.
Qed.

(** C6, as stated, fails: a [stop] in the middle of a dispatch abandons
    it, and the loop that the next [run] starts begins with the next
    message.  Here the first message has the worker and the supervisor
    as handlers; [stop] and [run] come while the worker is awaited.  The
    second message is dequeued and dispatched, but the invocation of the
    worker never ends and the supervisor is never invoked with the first
    message. *)
Lemma stop_abandons_a_dispatch :
  let w := Scenario.worker_agent_handler in
  let v := Scenario.supervisor_agent_handler in
  let m1 := Scenario.task_started in
  let m2 := Scenario.task_finished in
  let s := exec Scenario.example_bus
             [Publish m1; Publish m2; Resume 0 Returned; Stop; Run;
              Resume 0 Returned; Resume 1 Returned] in
  all_handlers (_subscribers Scenario.example_bus) m1 = [w; v]
  ∧ dequeued (trace s) = [m1; m2]
  ∧ calls (trace s) = [(w, m1); (v, m2)]
  ∧ ∀ r, Done 0 w m1 r ∉ trace s.
Proof.
  intros w v m1 m2 s. split_and!; try reflexivity.
  intros r H. vm_compute in H.
  repeat (apply elem_of_cons in H as [H|H]; [discriminate|]).
  by apply elem_of_nil in H.
Qed.

(** C6 (amended): the messages are dequeued in the order of their
    publication, one global order for all topics: at any time the
    dequeued messages followed by the queued ones are the published
    ones.  A handler invocation begins ([Call]) and ends ([Done]) only
    while its message is the one dequeued last, so no invocation for a
    message comes after the next message is dequeued.  And as long as
    [stop] is not called, every invocation has ended when a message is
    dequeued: no task has an invocation open at that time, so the
    dispatch of a message is over before the dispatch of the next one
    begins. *)
Theorem dispatch_is_fifo (es : list event) :
  let s := exec __init__ es in
  dequeued (trace s) ++ _message_queue s = published es
  ∧ (∀ tr1 tr2 t h m,
       trace s = tr1 ++ Call t h m :: tr2 → last (dequeued tr1) = Some m)
  ∧ (∀ tr1 tr2 t h m r,
       trace s = tr1 ++ Done t h m r :: tr2 → last (dequeued tr1) = Some m)
  ∧ (Stop ∉ es →
     ∀ tr1 tr2 t m,
       trace s = tr1 ++ Get t m :: tr2 →
       ∀ t', opened None (actions t' tr1) = None).
Proof.
  intros s. split_and!.
  - unfold s. by rewrite fifo_exec.
  - intros tr1 tr2 t h m Htr.
    eapply Executions.call_dequeued_last; eauto.
  - intros tr1 tr2 t h m r Htr.
    eapply Executions.call_dequeued_last; eauto 6.
  - intros Hstop tr1 tr2 t m Htr t'.
    destruct (steady_exec es __init__ steady_init Hstop) as (_ & _ & Hclosed).
    destruct (Hclosed t') as [_ Hc]. fold s in Hc. rewrite Htr in Hc.
    apply gets_closed_app in Hc as [_ Hc]. simpl in Hc. by destruct Hc.
Qed.

(** The bus of the example with two messages and no [stop]: when the
    second message is dequeued, the worker and the supervisor have both
    ended their invocation with the first one. *)
Lemma dispatch_is_fifo_witness :
  let es := [Subscribe "tasks.start" Scenario.worker_agent_handler;
             Subscribe "*" Scenario.supervisor_agent_handler; Run;
             Publish Scenario.task_started; Publish Scenario.task_finished;
             Resume 0 Returned; Resume 0 Raised; Resume 0 Returned] in
  let tr1 := take 12 (trace (exec __init__ es)) in
  trace (exec __init__ es) =
    tr1 ++ Get 0 Scenario.task_finished
        :: drop 13 (trace (exec __init__ es))
  ∧ opened None (actions 0 tr1) = None.
Proof.
  intros es tr1.
  assert (trace (exec __init__ es) =
          tr1 ++ Get 0 Scenario.task_finished
              :: drop 13 (trace (exec __init__ es))) as Htr
    by reflexivity.
  split; [exact Htr|].
  apply (proj2 (proj2 (proj2 (dispatch_is_fifo es)))) with
    (tr2 := drop 13 (trace (exec __init__ es))) (t := 0)
    (m := Scenario.task_finished); [|exact Htr].
  intros H. repeat (apply elem_of_cons in H as [H|H]; [discriminate|]).
  by apply elem_of_nil in H.
Defined.

End Ordering.
